(** * QUnfold: the QUBO formulation engine of [QUnfoldQUBO.py]

    A shallow embedding of [src/QUnfold/core/QUnfoldQUBO.py]: response
    normalisation, the encoding bound and the logarithmically encoded
    variables, the Hamiltonian, and the two solving methods with their
    decoding step.

    Conventions of the embedding.
    - numpy's float64 entries are exact rationals ([Qc]); rounding is not
      modelled, so every statement below is about the arithmetic the code
      asks for, not about its floating-point evaluation.
    - A Python exception is the [Raise] branch of [result].
    - The caller's response matrix is an object in a heap of 2-D arrays, so
      that copying ([np.copy]) and aliasing ([self.R = response]) are
      visible; 1-D temporaries are plain lists.
    - The samplers of [dwave] are opaque: they are function parameters.
    - A sample set is the list of its samples in the order in which
      pyqubo's [decode_sampleset] lists them decoded; where a statement is
      about the order in which the sample set itself iterates, the step
      from that order to the decoding order is an explicit function. *)

From Stdlib Require Import ZArith QArith Qcanon Lia.
From stdpp Require Import base numbers list gmap strings pretty.

Local Open Scope Qc_scope.

(** ** Exceptions and fallible computations *)

Inductive error :=
  | ValueError
  | IndexError
  | KeyError
  | AssertionError
  | ZeroDivisionError.

Inductive result (A : Type) :=
  | Ok (a : A)
  | Raise (e : error).
Arguments Ok {A} a.
Arguments Raise {A} e.

Global Instance result_ret : MRet result := @Ok.
Global Instance result_bind : MBind result := λ A B f m,
  match m with Ok a => f a | Raise e => Raise e end.
Global Instance result_fmap : FMap result := λ A B f m,
  match m with Ok a => Ok (f a) | Raise e => Raise e end.

Definition is_Ok {A} (m : result A) : Prop := ∃ a, m = Ok a.
Definition is_Raise {A} (m : result A) : Prop := ∃ e, m = Raise e.

(** [l[i]] on a Python list or a 1-D array: out of range raises. *)
Definition getitem {A} (l : list A) (i : nat) : result A :=
  match l !! i with Some a => Ok a | None => Raise IndexError end.

(** A comprehension or a loop whose body may raise. *)
Fixpoint mapM {A B} (f : A → result B) (l : list A) : result (list B) :=
  match l with
  | [] => Ok []
  | a :: l => b ← f a; bs ← mapM f l; Ok (b :: bs)
  end.

Fixpoint foldlM {A B} (f : B → A → result B) (b : B) (l : list A) : result B :=
  match l with
  | [] => Ok b
  | a :: l => b' ← f b a; foldlM f b' l
  end.

(** ** Numbers *)

Definition Qcabs (x : Qc) : Qc := if decide (0 ≤ x) then x else - x.

(** Python's [sum] and [np.sum] over a 1-D sequence: left-to-right
    accumulation from 0. *)
Definition qsum (v : list Qc) : Qc := foldl Qcplus 0 v.

(** Sum of [f k] for [k] in [range(n)]. *)
Definition sum_range (n : nat) (f : nat → Qc) : Qc := qsum (map f (seq 0 n)).

(** [2 ** e] for an integral exponent. *)
Definition pow2 (e : Z) : Qc :=
  if decide (0 ≤ e)%Z then Qc_of_Z (2 ^ e) else / Qc_of_Z (2 ^ (- e)).

(** The values [2 ** np.floor(...)] takes in [_define_variables]. *)
Inductive npfloat :=
  | Finite (q : Qc)
  | NaN.

(** [np.floor(np.log2(s))]: an integral float for [s > 0], [-inf] at 0 and
    [nan] below.  The integral value [e] is kept as an integer.  For
    [s = p/q > 0] the candidate [log2 p - log2 q] is at most one above the
    floor of the logarithm; one comparison decides. *)
Inductive flog :=
  | FExp (e : Z)
  | FNegInf
  | FNaN.

Definition pow2_le (e p q : Z) : bool :=
  if decide (0 ≤ e)%Z then bool_decide (2 ^ e * q ≤ p)%Z
  else bool_decide (q ≤ p * 2 ^ (- e))%Z.

Definition floor_log2 (s : Qc) : Z :=
  let p := Qnum s in
  let q := Z.pos (Qden s) in
  let e := (Z.log2 p - Z.log2 q)%Z in
  if pow2_le e p q then e else (e - 1)%Z.

Definition np_floor_log2 (s : Qc) : flog :=
  if decide (0 < s) then FExp (floor_log2 s)
  else if decide (s = 0) then FNegInf
  else FNaN.

(** [2 ** x] on such a float. *)
Definition py_pow2 (x : flog) : npfloat :=
  match x with
  | FExp e => Finite (pow2 e)
  | FNegInf => Finite 0
  | FNaN => NaN
  end.

(** [int(x)]: truncation towards zero; [int(nan)] raises [ValueError]. *)
Definition py_int (x : npfloat) : result Z :=
  match x with
  | Finite q => Ok (Z.quot (Qnum q) (Z.pos (Qden q)))
  | NaN => Raise ValueError
  end.

(** ** 2-D arrays *)

Record ndarray := NdArray {
  ncols : nat;
  rows : list (list Qc)
}.

Definition nrows (A : ndarray) : nat := length (rows A).

(** Every numpy 2-D array is rectangular. *)
Definition wf_ndarray (A : ndarray) : Prop :=
  Forall (λ r, length r = ncols A) (rows A).

(** The entry at [(i, j)], 0 outside the shape. *)
Definition entry (A : ndarray) (i j : nat) : Qc :=
  default 0 (rows A !! i ≫= (.!! j)).

Definition np_build (r c : nat) (f : nat → nat → Qc) : ndarray :=
  NdArray c (map (λ i, map (f i) (seq 0 c)) (seq 0 r)).

(** [B[i, j]] with numpy's bounds check. *)
Definition getitem2 (A : ndarray) (i j : nat) : result Qc :=
  row ← getitem (rows A) i; getitem row j.

(** [A.T] *)
Definition np_T (A : ndarray) : ndarray :=
  np_build (ncols A) (nrows A) (λ i j, entry A j i).

(** [A @ v] for a 1-D [v]: the inner dimensions must agree. *)
Definition np_matvec (A : ndarray) (v : list Qc) : result (list Qc) :=
  if decide (ncols A = length v) then
    Ok (map (λ i, sum_range (ncols A) (λ k, entry A i k * default 0 (v !! k)))
            (seq 0 (nrows A)))
  else Raise ValueError.

(** [A @ B] *)
Definition np_matmul (A B : ndarray) : result ndarray :=
  if decide (ncols A = nrows B) then
    Ok (np_build (nrows A) (ncols B)
          (λ i j, sum_range (ncols A) (λ k, entry A i k * entry B k j)))
  else Raise ValueError.

(** numpy broadcasting of one axis: equal lengths, or one of them is 1. *)
Definition bcast_dim (a b : nat) : option nat :=
  if decide (a = b) then Some a
  else if decide (a = 1%nat) then Some b
  else if decide (b = 1%nat) then Some a
  else None.

Definition bcast_entry (A : ndarray) (i j : nat) : Qc :=
  entry A (if decide (nrows A = 1%nat) then 0%nat else i)
          (if decide (ncols A = 1%nat) then 0%nat else j).

(** [A + B] with broadcasting. *)
Definition np_add (A B : ndarray) : result ndarray :=
  match bcast_dim (nrows A) (nrows B), bcast_dim (ncols A) (ncols B) with
  | Some r, Some c =>
      Ok (np_build r c (λ i j, bcast_entry A i j + bcast_entry B i j))
  | _, _ => Raise ValueError
  end.

(** [c * A] for a scalar [c]. *)
Definition np_scale (c : Qc) (A : ndarray) : ndarray :=
  NdArray (ncols A) (map (map (Qcmult c)) (rows A)).

(** [np.ones(n)]: a negative length raises. *)
Definition np_ones (n : Z) : result (list Qc) :=
  if decide (0 ≤ n)%Z then Ok (replicate (Z.to_nat n) 1) else Raise ValueError.

(** [np.diag(v, k)]: the square array of side [len(v) + |k|] with [v] on
    its [k]-th diagonal. *)
Definition np_diag (v : list Qc) (k : Z) : ndarray :=
  let n := (length v + Z.abs_nat k)%nat in
  np_build n n (λ i j,
    if decide (Z.of_nat j - Z.of_nat i = k)%Z
    then default 0 (v !! (i `min` j)) else 0).

(** [np.sum(matrix, axis=1)] *)
Definition np_sum_axis1 (A : ndarray) : list Qc := map qsum (rows A).

(** [np.allclose(v, 1)] with numpy's defaults [rtol=1e-05], [atol=1e-08]:
    [|s - 1| <= atol + rtol * |1|] for every entry. *)
Definition rtol : Qc := Qc_of_Z 1 / Qc_of_Z 100000.
Definition atol : Qc := Qc_of_Z 1 / Qc_of_Z 100000000.

Definition np_allclose_1 (v : list Qc) : bool :=
  forallb (λ s, bool_decide (Qcabs (s - 1) ≤ atol + rtol * Qcabs 1)) v.

(** [np.nonzero(v)]: the indices of the nonzero entries, in order. *)
Definition np_nonzero (v : list Qc) : list nat :=
  filter (λ i, v !! i ≠ Some 0) (seq 0 (length v)).

(** [l[mask]] for an index array [mask]. *)
Definition np_take {A} (l : list A) (mask : list nat) : result (list A) :=
  mapM (getitem l) mask.

(** Division of one row by a scalar.  numpy reports a zero divisor with a
    [RuntimeWarning] (an exception under [np.seterr(divide='raise')]); the
    model is stricter and raises, so that "no division by zero happens" is
    a statement about results. *)
Definition row_div (r : list Qc) (s : Qc) : result (list Qc) :=
  if decide (s = 0) then Raise ZeroDivisionError
  else Ok (map (λ e, e / s) r).

(** [sel / den[:, np.newaxis]]: row [k] of [sel] divided by [den[k]]. *)
Fixpoint np_divide_rows (sel : list (list Qc)) (den : list Qc)
    : result (list (list Qc)) :=
  match sel, den with
  | [], [] => Ok []
  | r :: sel, s :: den =>
      r' ← row_div r s; rs ← np_divide_rows sel den; Ok (r' :: rs)
  | _, _ => Raise ValueError
  end.

(** [l[mask] = new]: row [mask[k]] becomes [new[k]]. *)
Definition np_put {A} (l : list A) (mask : list nat) (new : list A) : list A :=
  foldl (λ acc p, <[p.1 := p.2]> acc) l (zip mask new).

(** ** The heap of 2-D array objects *)

Definition loc := nat.
Abbreviation heap := (gmap nat ndarray).

Definition deref (h : heap) (l : loc) : result ndarray :=
  match h !! l with Some A => Ok A | None => Raise KeyError end.

(** [np.copy(a)]: a new object with the contents of [a]. *)
Definition np_copy (l : loc) (h : heap) : result (loc * heap) :=
  A ← deref h l;
  let l' := fresh (dom h) in
  Ok (l', <[l' := A]> h).

(** ** QUnfoldQUBO: construction and normalisation *)

Record QUnfoldQUBO := mkQUnfoldQUBO {
  self_R : loc;
  self_d : list Qc;
  self_lam : Qc
}.

Definition _is_normalized (matrix : loc) (h : heap) : result bool :=
  A ← deref h matrix;
  Ok (np_allclose_1 (np_sum_axis1 A)).

Definition _normalize (matrix : loc) (h : heap) : result (loc * heap) :=
  A ← deref h matrix;
  let row_sums := np_sum_axis1 A in
  let mask := np_nonzero row_sums in
  '(norm_matrix, h1) ← np_copy matrix h;
  N ← deref h1 norm_matrix;
  sel ← np_take (rows N) mask;
  den ← np_take row_sums mask;
  quo ← np_divide_rows sel den;
  Ok (norm_matrix,
      <[norm_matrix := NdArray (ncols N) (np_put (rows N) mask quo)]> h1).

Definition __init__ (response : loc) (meas : list Qc) (lam : Qc) (h : heap)
    : result (QUnfoldQUBO * heap) :=
  let self := mkQUnfoldQUBO response meas lam in
  b ← _is_normalized (self_R self) h;
  if negb b then
    '(l, h') ← _normalize (self_R self) h;
    Ok (mkQUnfoldQUBO l (self_d self) (self_lam self), h')
  else Ok (self, h).

(** ** The encoding bound *)

(** [int(2 ** np.floor(np.log2(sum(self.d)))) - 1] *)
Definition encoding_bound (d : list Qc) : result Z :=
  n ← py_int (py_pow2 (np_floor_log2 (qsum d)));
  Ok (n - 1)%Z.

(** ** pyqubo expressions *)

(** The fragment of pyqubo's expression language the Hamiltonian uses:
    numbers, binary variables, sums, products and labelled
    sub-Hamiltonians. *)
Inductive Expr :=
  | Num (c : Qc)
  | Binary (label : string)
  | Add (a b : Expr)
  | Mul (a b : Expr)
  | SubH (e : Expr) (label : string).

(** A sample assigns 0 or 1 to every binary variable. *)
Definition sample := string → bool.

Definition bit (b : bool) : Qc := if b then 1 else 0.

Fixpoint eval (σ : sample) (e : Expr) : Qc :=
  match e with
  | Num c => c
  | Binary l => bit (σ l)
  | Add a b => eval σ a + eval σ b
  | Mul a b => eval σ a * eval σ b
  | SubH e _ => eval σ e
  end.

(** The values of the labelled sub-Hamiltonians of an expression under a
    sample: the [subh] dictionary of a decoded sample. *)
Fixpoint subh_of (σ : sample) (e : Expr) : gmap string Qc :=
  match e with
  | Num _ | Binary _ => ∅
  | Add a b | Mul a b => subh_of σ a ∪ subh_of σ b
  | SubH e l => <[l := eval σ e]> (subh_of σ e)
  end.

(** pyqubo's [Integer] objects. *)
Record Integer := mkInteger {
  label : string;
  value_range : Z * Z;
  express : Expr
}.

(** The name of the [i]-th binary of [Array.create(label, ...)]. *)
Definition array_name (label : string) (i : nat) : string :=
  label +:+ "[" +:+ pretty i +:+ "]".

(** Modelled from the spec: [LogEncInteger] is pyqubo's, which is not under
    src/.  The spec describes it as an integer over a closed range
    [[lower, upper]], "materialized as a small ordered set of binary
    sub-variables whose weighted sum reconstructs the integer value
    (logarithmic/binary positional encoding)", with [O(log2(n_max))]
    binaries.  For a range of width [span] there are
    [floor(log2(span)) + 1] binaries; their weights are the powers of two,
    the last one cut so that all weights add up to [span]. *)
Definition num_variables (span : Z) : nat := Z.to_nat (Z.log2 span + 1).

Definition log_weights (span : Z) : list Z :=
  let n := num_variables span in
  map (λ i, 2 ^ Z.of_nat i)%Z (seq 0 (n - 1))
  ++ [(span - (2 ^ Z.of_nat (n - 1) - 1))%Z].

(** Modelled from the spec: the expression of a [LogEncInteger], the lower
    end of the range plus the weighted sum of its binaries
    [label[0], label[1], ...]. *)
Definition log_enc_express (label : string) (lower : Z) (ws : list Z) : Expr :=
  foldl (λ acc p, Add acc (Mul (Num (Qc_of_Z p.2)) (Binary (array_name label p.1))))
        (Num (Qc_of_Z lower)) (zip (seq 0 (length ws)) ws).

(** Modelled from the spec: the constructor [LogEncInteger(label,
    value_range=(lower, upper))].  The expression is wrapped in a
    sub-Hamiltonian carrying the variable's label, which is what
    [subh[label]] reads back after sampling; pyqubo asserts
    [upper > lower]. *)
Definition LogEncInteger (label : string) (value_range : Z * Z) : result Integer :=
  let '(lower, upper) := value_range in
  if decide (lower < upper)%Z then
    let express := log_enc_express label lower (log_weights (upper - lower)) in
    Ok (mkInteger label value_range (SubH express label))
  else Raise AssertionError.

(** ** Variables, Hamiltonian, model *)

(** The methods below read [self.R], [self.d] and [self.lam]; here they
    take the array [self.R] refers to, the measured vector and [lam] as
    arguments, and the solving methods dereference [self.R]. *)

Definition _get_laplacian (dim : nat) : result ndarray :=
  d1 ← np_ones (Z.of_nat dim);
  let diag := map (λ e, e * Qc_of_Z (-2)) d1 in
  ones ← np_ones (Z.of_nat dim - 1);
  D ← np_add (np_diag diag 0) (np_diag ones 1);
  np_add D (np_diag ones (-1)).

(** The label [f"x{i}"]. *)
Definition xlabel (i : nat) : string := "x" +:+ pretty i.

Definition _define_variables (d : list Qc) : result (list Integer) :=
  n ← encoding_bound d;
  mapM (λ i, LogEncInteger (xlabel i) (0%Z, n)) (seq 0 (length d)).

Definition _define_hamiltonian (Rm : ndarray) (d : list Qc) (lam : Qc)
    (x : list Integer) : result Expr :=
  let hamiltonian := Num 0 in
  let dim := length x in
  Rtd ← np_matvec (np_T Rm) d;
  let a := map (Qcmult (Qc_of_Z (-2))) Rtd in
  hamiltonian ← foldlM (λ h i,
      ai ← getitem a i;
      xi ← getitem x i;
      Ok (Add h (Mul (Num ai) (express xi))))
    hamiltonian (seq 0 dim);
  G ← _get_laplacian dim;
  RtR ← np_matmul (np_T Rm) Rm;
  GtG ← np_matmul (np_T G) G;
  B ← np_add RtR (np_scale lam GtG);
  foldlM (λ h i,
      foldlM (λ h j,
          bij ← getitem2 B i j;
          xi ← getitem x i;
          xj ← getitem x j;
          Ok (Add h (Mul (Mul (Num bij) (express xi)) (express xj))))
        h (seq 0 dim))
    hamiltonian (seq 0 dim).

(** [h.compile()] keeps the polynomial; the model is its expression. *)
Definition _define_pyqubo_model (Rm : ndarray) (d : list Qc) (lam : Qc)
    : result (list string * Expr) :=
  x ← _define_variables d;
  h ← _define_hamiltonian Rm d lam x;
  labels ← mapM (λ i, label <$> getitem x i) (seq 0 (length x));
  Ok (labels, h).

(** ** Sampling and decoding *)

Record DecodedSample := mkDecodedSample {
  ds_sample : sample;
  energy : Qc;
  subh : gmap string Qc
}.

(** Modelled from the spec: [model.decode_sampleset] is pyqubo's, which is
    not under src/.  The spec has every returned sample decoded: to its
    energy under the model and to the values of its variables, which are
    the labelled sub-Hamiltonians.  A sample set is given here as the list
    of its samples in the order in which [decode_sampleset] returns them
    decoded.  That order is pyqubo's; it need not be the order in which
    the sampler's sample set iterates (see [enumerated_sa]). *)
Definition decode_sampleset (model : Expr) (sampleset : list sample)
    : list DecodedSample :=
  map (λ σ, mkDecodedSample σ (eval σ model) (subh_of σ model)) sampleset.

(** Python's [min(l, key=...)]: raises on an empty sequence; a later item
    replaces the current one only when its key is strictly smaller. *)
Definition py_min {A} (key : A → Qc) (l : list A) : result A :=
  match l with
  | [] => Raise ValueError
  | a :: l => Ok (foldl (λ best s, if decide (key s < key best) then s else best) a l)
  end.

(** [best_sample.subh[label]] *)
Definition subh_item (s : DecodedSample) (l : string) : result Qc :=
  match subh s !! l with Some v => Ok v | None => Raise KeyError end.

(** Lines 78-80 and 86-88: decode, select, assemble. *)
Definition decode_best (labels : list string) (model : Expr)
    (sampleset : list sample) : result (list Qc) :=
  let decoded_sampleset := decode_sampleset model sampleset in
  best_sample ← py_min energy decoded_sampleset;
  mapM (subh_item best_sample) labels.

(** The two samplers are parameters: they receive the model (and, for
    simulated annealing, [num_reads] and [seed]) and return a sample set
    or raise.  The sample set is the list that [decode_sampleset] reads:
    its samples in decoding order. *)
Definition sa_sampler := Expr → Z → option Z → result (list sample).
Definition hybrid_sampler := Expr → result (list sample).

Definition solve_simulated_annealing (self : QUnfoldQUBO) (h : heap)
    (sampler : sa_sampler) (num_reads : Z) (seed : option Z)
    : result (list Qc) :=
  Rm ← deref h (self_R self);
  '(labels, model) ← _define_pyqubo_model Rm (self_d self) (self_lam self);
  sampleset ← sampler model num_reads seed;
  decode_best labels model sampleset.

Definition solve_hybrid_sampler (self : QUnfoldQUBO) (h : heap)
    (sampler : hybrid_sampler) : result (list Qc) :=
  Rm ← deref h (self_R self);
  '(labels, model) ← _define_pyqubo_model Rm (self_d self) (self_lam self);
  sampleset ← sampler model;
  decode_best labels model sampleset.

(** ** Logarithmic encoding of one value *)

Definition sumZ (l : list Z) : Z := foldr Z.add 0%Z l.

(** The positional binary digits of [v], least significant first. *)
Definition encode (k : nat) (v : Z) : list bool :=
  map (λ i, Z.testbit v (Z.of_nat i)) (seq 0 k).

(** The decode rule: the lower end of the range plus the weighted sum of
    the binary digits. *)
Definition decode (lower : Z) (ws : list Z) (bits : list bool) : Z :=
  (lower + sumZ (zip_with (λ w b, w * Z.b2z b) ws bits))%Z.

(** The digits a sample gives to the binaries of the variable [label]. *)
Definition bits_of (σ : sample) (label : string) (k : nat) : list bool :=
  map (λ i, σ (array_name label i)) (seq 0 k).

(** ** Specification of the normalised response *)

(** What the spec asks of one row: divided by its own sum, unless the sum
    is exactly zero. *)
Definition norm_row (r : list Qc) : list Qc :=
  if decide (qsum r = 0) then r else map (λ e, e / qsum r) r.

Definition normalized (A : ndarray) : ndarray :=
  NdArray (ncols A) (map norm_row (rows A)).

(** ** Specification of the Hamiltonian's coefficients *)

(** The second-difference matrix in the spec's words: -2 on the diagonal,
    1 on the first off-diagonals, 0 elsewhere. *)
Definition laplacian_entry (i j : nat) : Qc :=
  if decide (i = j) then Qc_of_Z (-2)
  else if decide (j = S i ∨ i = S j) then 1
  else 0.

(** [a = -2 Rᵗ d] *)
Definition linear_coeff (Rm : ndarray) (d : list Qc) (j : nat) : Qc :=
  Qc_of_Z (-2) * sum_range (nrows Rm) (λ i, entry Rm i j * default 0 (d !! i)).

(** [RᵗR] and [GᵗG] for the [n × n] second-difference matrix [G]. *)
Definition RtR_entry (Rm : ndarray) (i j : nat) : Qc :=
  sum_range (nrows Rm) (λ k, entry Rm k i * entry Rm k j).

Definition GtG_entry (n i j : nat) : Qc :=
  sum_range n (λ k, laplacian_entry k i * laplacian_entry k j).

(** [B = RᵗR + lam GᵗG] *)
Definition quadratic_coeff (Rm : ndarray) (lam : Qc) (n i j : nat) : Qc :=
  RtR_entry Rm i j + lam * GtG_entry n i j.

(** [aᵗx + xᵗBx] for the values [val 0, ..., val (n-1)] of the variables. *)
Definition quadratic_form (n : nat) (a : nat → Qc) (B : nat → nat → Qc)
    (val : nat → Qc) : Qc :=
  sum_range n (λ i, a i * val i)
  + sum_range n (λ i, sum_range n (λ j, B i j * val i * val j)).

(** The expression of the [i]-th variable and its value under a sample. *)
Definition var_expr (x : list Integer) (i : nat) : Expr :=
  default (Num 0) (express <$> x !! i).

Definition var_value (σ : sample) (x : list Integer) (i : nat) : Qc :=
  eval σ (var_expr x i).

(** The polynomial the two loops of [_define_hamiltonian] build from given
    coefficients. *)
Definition hamiltonian_of (n : nat) (a : nat → Qc) (B : nat → nat → Qc)
    (x : list Integer) : Expr :=
  foldl (λ h i,
      foldl (λ h j, Add h (Mul (Mul (Num (B i j)) (var_expr x i)) (var_expr x j)))
        h (seq 0 n))
    (foldl (λ h i, Add h (Mul (Num (a i)) (var_expr x i))) (Num 0) (seq 0 n))
    (seq 0 n).

(** The variables [_define_variables] creates for a bound [n] and [m]
    entries of the measured vector. *)
Definition variables (n : Z) (m : nat) : list Integer :=
  map (λ i, mkInteger (xlabel i) (0%Z, n)
              (SubH (log_enc_express (xlabel i) 0 (log_weights n)) (xlabel i)))
      (seq 0 m).

(** The integer a sample gives to the [k]-th variable, by the decode rule. *)
Definition decoded_value (σ : sample) (n : Z) (k : nat) : Qc :=
  Qc_of_Z (decode 0 (log_weights n) (bits_of σ (xlabel k) (num_variables n))).

(** Every entry of the map belongs to one of the [m] variables. *)
Definition subh_sound (σ : sample) (n : Z) (m : nat) (M : gmap string Qc) : Prop :=
  ∀ (l : string) (v : Qc), M !! l = Some v →
    ∃ k : nat, (k < m)%nat ∧ l = xlabel k ∧ v = decoded_value σ n k.

(** ** Concrete inputs used below *)

Definition frac (a b : Z) : Qc := Qc_of_Z a / Qc_of_Z b.

(** A raw-count response with an all-zero row, stored at address 0. *)
Definition counts_with_zero_row : ndarray :=
  NdArray 2 [[Qc_of_Z 0; Qc_of_Z 0]; [Qc_of_Z 1; Qc_of_Z 3]].

Definition heap_with (A : ndarray) : heap := {[ 0%nat := A ]}.

Definition identity3 : ndarray :=
  NdArray 3 [[Qc_of_Z 1; Qc_of_Z 0; Qc_of_Z 0];
             [Qc_of_Z 0; Qc_of_Z 1; Qc_of_Z 0];
             [Qc_of_Z 0; Qc_of_Z 0; Qc_of_Z 1]].

(** A 1 x 2 response (one measured bin, two truth bins) and a 2 x 1
    response (two measured bins, one truth bin); both are row-stochastic. *)
Definition wide_response : ndarray := NdArray 2 [[frac 1 2; frac 1 2]].

Definition tall_response : ndarray := NdArray 1 [[Qc_of_Z 1]; [Qc_of_Z 1]].

(** Samples: every binary 0, and the three binaries of [x0] set. *)
Definition all_zero : sample := λ _, false.

Definition x0_all_ones : sample := λ name,
  bool_decide (name = "x0[0]") || bool_decide (name = "x0[1]")
  || bool_decide (name = "x0[2]").

(** Samplers that return a fixed sample set whatever they are asked. *)
Definition fixed_sa_sampler (ss : list sample) : sa_sampler := λ _ _ _, Ok ss.
Definition fixed_hybrid_sampler (ss : list sample) : hybrid_sampler := λ _, Ok ss.

(** Construction followed by one solve call. *)
Definition construct_and_anneal (A : ndarray) (d : list Qc) (lam : Qc)
    (sampler : sa_sampler) (num_reads : Z) (seed : option Z) : result (list Qc) :=
  '(self, h) ← __init__ 0%nat d lam (heap_with A);
  solve_simulated_annealing self h sampler num_reads seed.

Definition construct_and_hybrid (A : ndarray) (d : list Qc) (lam : Qc)
    (sampler : hybrid_sampler) : result (list Qc) :=
  '(self, h) ← __init__ 0%nat d lam (heap_with A);
  solve_hybrid_sampler self h sampler.

(** A sampler that refuses a non-positive [num_reads], as dwave's
    simulated-annealing sampler does. *)
Definition strict_sa_sampler (ss : list sample) : sa_sampler := λ _ num_reads _,
  if decide (num_reads ≤ 0)%Z then Raise ValueError else Ok ss.

(** The tolerance [atol + rtol * |1|] of [np.allclose(., 1)]. *)
Definition allclose_tol : Qc := atol + rtol * Qcabs 1.

(** A 2 x 2 table of raw counts without a zero row, and the same table
    with every count doubled. *)
Definition counts22 : ndarray :=
  NdArray 2 [[Qc_of_Z 3; Qc_of_Z 1]; [Qc_of_Z 2; Qc_of_Z 6]].

Definition counts22_doubled : ndarray :=
  NdArray 2 [[Qc_of_Z 6; Qc_of_Z 2]; [Qc_of_Z 4; Qc_of_Z 12]].

(** ** The least-squares reading of the Hamiltonian *)

(** [(M x)_k] for a matrix given by its entries and [n] unknowns. *)
Definition apply_row (M : nat → nat → Qc) (n : nat) (x : nat → Qc) (k : nat) : Qc :=
  sum_range n (λ j, M k j * x j).

(** [‖R x - d‖²], [‖d‖²] and [‖G x‖²]. *)
Definition residual2 (Rm : ndarray) (d : list Qc) (n : nat) (x : nat → Qc) : Qc :=
  sum_range (nrows Rm) (λ k,
    (apply_row (entry Rm) n x k - default 0 (d !! k))
    * (apply_row (entry Rm) n x k - default 0 (d !! k))).

Definition norm2 (m : nat) (d : list Qc) : Qc :=
  sum_range m (λ k, default 0 (d !! k) * default 0 (d !! k)).

Definition curvature2 (n : nat) (x : nat → Qc) : Qc :=
  sum_range n (λ k, apply_row laplacian_entry n x k * apply_row laplacian_entry n x k).

(** The objective the sampler's energies order: data fidelity plus the
    weighted smoothness penalty. *)
Definition objective (Rm : ndarray) (d : list Qc) (lam : Qc) (n : nat)
    (x : nat → Qc) : Qc :=
  residual2 Rm d n x + lam * curvature2 n x.

(** The binary variables of an expression, in order of occurrence. *)
Fixpoint binaries (e : Expr) : list string :=
  match e with
  | Num _ => []
  | Binary l => [l]
  | Add a b | Mul a b => binaries a ++ binaries b
  | SubH e _ => binaries e
  end.

(** ** The caller [QUnfold_unfolder_and_plot] of [studies/functions] *)

(** What lies outside the core: creating the output directory and the
    plotter ([QUnfoldPlotter(...)], [savePlot], [saveResponse]).  Each is
    an operation that may raise and that leaves the arrays as they are;
    the plotter is given the caller's response, the measured and truth
    vectors and an unfolded vector.  The arguments [distr], [bins],
    [min_bin] and [max_bin] only name the files and the binning of the
    plots; they are part of the environment. *)
Record plot_env := mkPlotEnv {
  env_makedirs : result unit;
  env_plot_sa : loc → list Qc → list Qc → list Qc → result unit;
  env_plot_hyb : loc → list Qc → list Qc → list Qc → result unit
}.

Definition QUnfold_unfolder_and_plot (env : plot_env) (sa : sa_sampler)
    (hyb : hybrid_sampler) (unf_type : string) (response : loc)
    (meas truth : list Qc) (h : heap) : result (list Qc) :=
  _ ← env_makedirs env;
  '(unfolder, h1) ← __init__ response meas (frac 5 100) h;
  unfolded_SA ← solve_simulated_annealing unfolder h1 sa 100 None;
  _ ← env_plot_sa env response meas truth unfolded_SA;
  unfolded_HYB ← solve_hybrid_sampler unfolder h1 hyb;
  _ ← env_plot_hyb env response meas truth unfolded_HYB;
  Ok unfolded_SA.

(** An environment in which no file operation fails. *)
Definition quiet_env : plot_env :=
  mkPlotEnv (Ok ()) (λ _ _ _ _, Ok ()) (λ _ _ _ _, Ok ()).

(** A hybrid sampler that cannot be reached. *)
Definition unreachable_hybrid : hybrid_sampler := λ _, Raise ValueError.

(** ** The order of the decoded samples *)






(** * Properties *)

(** ** The error monad *)

Lemma bind_Ok {A B} (m : result A) (f : A → result B) (b : B) :
  m ≫= f = Ok b ↔ ∃ a, m = Ok a ∧ f a = Ok b.
Proof.
  destruct m as [a|e]; simpl; split.
  - intros H. by exists a.
  - by intros (a' & [= ->] & H).
  - done.
  - by intros (a' & [=] & _).
Qed.

Lemma mapM_length {A B} (f : A → result B) (l : list A) (bs : list B) :
  mapM f l = Ok bs → length bs = length l.
Proof.
  revert bs. induction l as [|a l IH]; intros bs; simpl.
  - by intros [= <-].
  - destruct (f a) as [b|]; simpl; [|done].
    destruct (mapM f l) as [bs'|]; simpl; [|done].
    intros [= <-]. simpl. f_equal. by apply IH.
Qed.

Lemma mapM_Ok_map {A B} (f : A → result B) (g : A → B) (l : list A) :
  (∀ a, a ∈ l → f a = Ok (g a)) → mapM f l = Ok (map g l).
Proof.
  induction l as [|a l IH]; intros Hf; simpl; [done|].
  rewrite Hf by left. simpl. rewrite IH; [done|].
  intros a' Ha'. apply Hf. by right.
Qed.

Lemma getitem_Ok {A} (l : list A) (i : nat) (a : A) :
  getitem l i = Ok a ↔ l !! i = Some a.
Proof. unfold getitem. destruct (l !! i); split; congruence. Qed.

(** ** Rational arithmetic *)

Lemma qsum_foldl (a : Qc) (v : list Qc) : foldl Qcplus a v = a + qsum v.
Proof.
  unfold qsum. revert a. induction v as [|x v IH]; intros a; simpl.
  - ring.
  - rewrite IH, (IH (0 + x)). ring.
Qed.

Lemma qsum_nil : qsum [] = 0.
Proof. done. Qed.

Lemma qsum_cons (x : Qc) (v : list Qc) : qsum (x :: v) = x + qsum v.
Proof. unfold qsum at 1. simpl. rewrite qsum_foldl. ring. Qed.

Lemma qsum_app (u v : list Qc) : qsum (u ++ v) = qsum u + qsum v.
Proof.
  induction u as [|x u IH]; simpl.
  - rewrite qsum_nil. ring.
  - rewrite !qsum_cons, IH. ring.
Qed.

Lemma Qc_num_den (s : Qc) :
  s * Qc_of_Z (Z.pos (Qden s)) = Qc_of_Z (Qnum s).
Proof.
  apply Qc_is_canon. simpl. rewrite Qred_correct.
  destruct s as [[p q] Hs]. unfold Qeq. simpl. lia.
Qed.

Lemma Qc_of_Z_pos (z : Z) : (0 < z)%Z → 0 < Qc_of_Z z.
Proof. intros Hz. rewrite <-Z2Qc_inj_0. by apply (proj1 (Z2Qc_inj_lt 0 z)). Qed.

Lemma Qc_num_pos (s : Qc) : 0 < s ↔ (0 < Qnum s)%Z.
Proof.
  rewrite (Z2Qc_inj_lt 0 (Qnum s)), Z2Qc_inj_0, <-Qc_num_den.
  assert (0 < Qc_of_Z (Z.pos (Qden s))) as Hq by (by apply Qc_of_Z_pos).
  rewrite <-(Qcmult_0_l (Qc_of_Z (Z.pos (Qden s)))) at 2.
  apply Qcmult_lt_mono_pos_r. done.
Qed.

Lemma pow2_pos (e : Z) : 0 < pow2 e.
Proof.
  unfold pow2. case_decide.
  - apply Qc_of_Z_pos. by apply Z.pow_pos_nonneg.
  - apply Qcinv_pos, Qc_of_Z_pos. apply Z.pow_pos_nonneg; lia.
Qed.

Lemma pow2_succ (e : Z) : pow2 (e + 1) = 2 * pow2 e.
Proof.
  unfold pow2. destruct (decide (0 ≤ e)%Z) as [He|He].
  - rewrite decide_True by lia.
    rewrite Z.pow_add_r, Z.pow_1_r, Z2Qc_inj_mul, Z2Qc_inj_2 by lia. ring.
  - destruct (decide (0 ≤ e + 1)%Z) as [He1|He1].
    + replace e with (-1)%Z by lia. simpl.
      apply Qc_is_canon. reflexivity.
    + replace (- e)%Z with (- (e + 1) + 1)%Z by lia.
      rewrite Z.pow_add_r, Z.pow_1_r, Z2Qc_inj_mul, Z2Qc_inj_2 by lia.
      assert (0 < Qc_of_Z (2 ^ (- (e + 1)))) as Hp
        by (apply Qc_of_Z_pos, Z.pow_pos_nonneg; lia).
      field. split; [done|]. intros Heq. rewrite Heq in Hp.
      by apply Qclt_not_eq in Hp.
Qed.

Lemma pow2_0 : pow2 0 = 1.
Proof. apply Qc_is_canon. reflexivity. Qed.

Lemma pow2_lt_succ (e : Z) : pow2 e < pow2 (e + 1).
Proof.
  rewrite pow2_succ. pose proof (pow2_pos e) as Hp.
  rewrite <-(Qcmult_1_l (pow2 e)) at 1.
  apply Qcmult_lt_mono_pos_r; done.
Qed.

Lemma pow2_mono (e1 e2 : Z) : (e1 ≤ e2)%Z → pow2 e1 ≤ pow2 e2.
Proof.
  intros He. replace e2 with (e1 + Z.of_nat (Z.to_nat (e2 - e1)))%Z by lia.
  induction (Z.to_nat (e2 - e1)) as [|k IH].
  - rewrite Z.add_0_r. apply Qcle_refl.
  - replace (e1 + Z.of_nat (S k))%Z with (e1 + Z.of_nat k + 1)%Z by lia.
    eapply Qcle_trans; [apply IH|]. apply Qclt_le_weak, pow2_lt_succ.
Qed.

Lemma pow2_lt_inv (e1 e2 : Z) : pow2 e1 < pow2 e2 → (e1 < e2)%Z.
Proof.
  intros Hlt. destruct (decide (e1 < e2)%Z) as [|Hge]; [done|].
  apply Qclt_not_le in Hlt. destruct Hlt. apply pow2_mono. lia.
Qed.

(** [pow2_le e p q] decides [2^e ≤ p/q]. *)
Lemma pow2_le_spec (e : Z) (s : Qc) :
  pow2_le e (Qnum s) (Z.pos (Qden s)) = true ↔ pow2 e ≤ s.
Proof.
  assert (0 < Qc_of_Z (Z.pos (Qden s))) as Hq by (by apply Qc_of_Z_pos).
  unfold pow2_le, pow2. case_decide as He; rewrite bool_decide_eq_true.
  - rewrite Z2Qc_inj_le, Z2Qc_inj_mul, <-Qc_num_den.
    symmetry. by apply Qcmult_le_mono_pos_r.
  - assert (0 < Qc_of_Z (2 ^ (- e))) as Hp
      by (apply Qc_of_Z_pos, Z.pow_pos_nonneg; lia).
    rewrite Z2Qc_inj_le, Z2Qc_inj_mul, <-Qc_num_den.
    rewrite (Qcmult_le_mono_pos_r (/ Qc_of_Z (2 ^ (- e))) s
               (Qc_of_Z (Z.pos (Qden s)) * Qc_of_Z (2 ^ (- e))))
      by (by apply Qcmult_pos_pos).
    assert (Qc_of_Z (2 ^ (- e)) ≠ 0) as Hne
      by (intros Heq; rewrite Heq in Hp; by apply Qclt_not_eq in Hp).
    replace (/ Qc_of_Z (2 ^ (- e)) * (Qc_of_Z (Z.pos (Qden s)) * Qc_of_Z (2 ^ (- e))))
      with (Qc_of_Z (Z.pos (Qden s))) by (field; done).
    replace (s * (Qc_of_Z (Z.pos (Qden s)) * Qc_of_Z (2 ^ (- e))))
      with (s * Qc_of_Z (Z.pos (Qden s)) * Qc_of_Z (2 ^ (- e))) by ring.
    done.
Qed.

Lemma log2_candidate_lower (p q : Z) :
  (0 < p)%Z → (0 < q)%Z →
  pow2_le (Z.log2 p - Z.log2 q - 1) p q = true.
Proof.
  intros Hp Hq.
  destruct (Z.log2_spec p Hp) as [Ha1 Ha2], (Z.log2_spec q Hq) as [Hb1 Hb2].
  pose proof (Z.log2_nonneg p). pose proof (Z.log2_nonneg q).
  set (a := Z.log2 p) in *. set (b := Z.log2 q) in *.
  unfold pow2_le. case_decide as He; apply bool_decide_eq_true.
  - assert (2 ^ a = 2 ^ (a - b - 1) * 2 ^ Z.succ b)%Z as Hpow
      by (rewrite <-Z.pow_add_r by lia; f_equal; lia).
    assert (0 < 2 ^ (a - b - 1))%Z by (apply Z.pow_pos_nonneg; lia).
    nia.
  - assert (2 ^ Z.succ b = 2 ^ a * 2 ^ (- (a - b - 1)))%Z as Hpow
      by (rewrite <-Z.pow_add_r by lia; f_equal; lia).
    assert (0 < 2 ^ (- (a - b - 1)))%Z by (apply Z.pow_pos_nonneg; lia).
    nia.
Qed.

Lemma log2_candidate_upper (p q : Z) :
  (0 < p)%Z → (0 < q)%Z →
  pow2_le (Z.log2 p - Z.log2 q + 1) p q = false.
Proof.
  intros Hp Hq.
  destruct (Z.log2_spec p Hp) as [Ha1 Ha2], (Z.log2_spec q Hq) as [Hb1 Hb2].
  pose proof (Z.log2_nonneg p). pose proof (Z.log2_nonneg q).
  set (a := Z.log2 p) in *. set (b := Z.log2 q) in *.
  unfold pow2_le. case_decide as He; apply bool_decide_eq_false.
  - assert (2 ^ Z.succ a = 2 ^ (a - b + 1) * 2 ^ b)%Z as Hpow
      by (rewrite <-Z.pow_add_r by lia; f_equal; lia).
    assert (0 < 2 ^ (a - b + 1))%Z by (apply Z.pow_pos_nonneg; lia).
    nia.
  - assert (2 ^ b = 2 ^ Z.succ a * 2 ^ (- (a - b + 1)))%Z as Hpow
      by (rewrite <-Z.pow_add_r by lia; f_equal; lia).
    assert (0 < 2 ^ (- (a - b + 1)))%Z by (apply Z.pow_pos_nonneg; lia).
    nia.
Qed.

(** [floor_log2] is the floor of the binary logarithm. *)
Lemma floor_log2_spec (s : Qc) :
  0 < s → pow2 (floor_log2 s) ≤ s ∧ s < pow2 (floor_log2 s + 1).
Proof.
  intros Hs. apply Qc_num_pos in Hs.
  pose proof (log2_candidate_lower (Qnum s) (Z.pos (Qden s)) Hs eq_refl) as Hlo.
  pose proof (log2_candidate_upper (Qnum s) (Z.pos (Qden s)) Hs eq_refl) as Hup.
  unfold floor_log2.
  destruct (pow2_le (Z.log2 (Qnum s) - Z.log2 (Z.pos (Qden s))) _ _) eqn:Hc.
  - split; [by apply pow2_le_spec|].
    apply Qclt_nge. rewrite <-pow2_le_spec. by rewrite Hup.
  - split; [by apply pow2_le_spec|].
    apply Qclt_nge. rewrite <-pow2_le_spec.
    replace (Z.log2 (Qnum s) - Z.log2 (Z.pos (Qden s)) - 1 + 1)%Z
      with (Z.log2 (Qnum s) - Z.log2 (Z.pos (Qden s)))%Z by lia.
    by rewrite Hc.
Qed.

Lemma floor_log2_unique (s : Qc) (e : Z) :
  pow2 e ≤ s → s < pow2 (e + 1) → floor_log2 s = e.
Proof.
  intros Hlo Hup.
  assert (0 < s) as Hs by (eapply Qclt_le_trans; [apply pow2_pos|done]).
  destruct (floor_log2_spec s Hs) as [Hlo' Hup'].
  assert (floor_log2 s < e + 1)%Z
    by (apply pow2_lt_inv; by eapply Qcle_lt_trans).
  assert (e < floor_log2 s + 1)%Z
    by (apply pow2_lt_inv; by eapply Qcle_lt_trans).
  lia.
Qed.

(** [int(2 ** e)] *)
Lemma py_int_pow2 (e : Z) :
  py_int (Finite (pow2 e)) = Ok (if decide (0 ≤ e)%Z then 2 ^ e else 0)%Z.
Proof.
  simpl. f_equal. case_decide as He.
  - unfold pow2. rewrite decide_True by done. simpl. apply Z.quot_1_r.
  - assert (pow2 e < 1) as Hlt.
    { rewrite <-pow2_0. eapply Qclt_le_trans; [apply pow2_lt_succ|].
      apply pow2_mono. lia. }
    pose proof (pow2_pos e) as Hpos. apply Qc_num_pos in Hpos.
    apply Z.quot_small. split; [lia|].
    unfold Qclt, Qlt in Hlt. simpl in Hlt. lia.
Qed.

(** ** The encoding bound *)

Lemma pow2_1 : pow2 1 = 2.
Proof. replace (pow2 1) with (pow2 (0 + 1)) by done. rewrite pow2_succ, pow2_0. ring. Qed.

Lemma encoding_bound_pos (d : list Qc) :
  0 < qsum d →
  encoding_bound d =
    Ok ((if decide (0 ≤ floor_log2 (qsum d))%Z
         then 2 ^ floor_log2 (qsum d) else 0) - 1)%Z.
Proof.
  intros Hs. unfold encoding_bound, np_floor_log2.
  rewrite decide_True by done. cbn [py_pow2].
  by rewrite py_int_pow2.
Qed.

Lemma encoding_bound_zero (d : list Qc) :
  qsum d = 0 → encoding_bound d = Ok (-1)%Z.
Proof.
  intros Hs. unfold encoding_bound, np_floor_log2. rewrite Hs.
  rewrite decide_False by (intros H; by apply Qclt_not_eq in H).
  by rewrite decide_True by done.
Qed.

(** A negative total has no logarithm: [int(nan)] raises. *)
Lemma encoding_bound_negative (d : list Qc) :
  qsum d < 0 → encoding_bound d = Raise ValueError.
Proof.
  intros Hs. unfold encoding_bound, np_floor_log2.
  rewrite decide_False by (intros H; eapply Qclt_not_le; [exact H|];
                           by apply Qclt_le_weak).
  rewrite decide_False by (intros H; rewrite H in Hs; by apply Qclt_not_eq in Hs).
  done.
Qed.

(** The bound for a measured vector of non-negative total, case by case
    in the total. *)
Lemma encoding_bound_cases (d : list Qc) :
  0 ≤ qsum d →
  ∃ n : Z,
    encoding_bound d = Ok n ∧
    (∀ d' : list Qc, qsum d' = qsum d → encoding_bound d' = Ok n) ∧
    (0 < qsum d → ∃ e : Z,
       pow2 e ≤ qsum d ∧ qsum d < pow2 (e + 1) ∧
       n = ((if decide (0 ≤ e)%Z then 2 ^ e else 0) - 1)%Z) ∧
    ((1 ≤ n)%Z ↔ 2 ≤ qsum d) ∧
    (1 ≤ qsum d → qsum d < 2 → n = 0%Z) ∧
    (qsum d < 1 → n = (-1)%Z) ∧
    (qsum d < 2 → ∀ v : Z, (0 ≤ v ≤ n)%Z → v = 0%Z).
Proof.
  intros Hnn.
  assert (∀ n, encoding_bound d = Ok n →
            ∀ d' : list Qc, qsum d' = qsum d → encoding_bound d' = Ok n) as Hdep.
  { intros n Hn d' Hd'. unfold encoding_bound in *. by rewrite Hd'. }
  destruct (decide (qsum d = 0)) as [Hz|Hnz].
  { exists (-1)%Z. pose proof (encoding_bound_zero d Hz) as Hb. rewrite Hz.
    split; [done|]. split; [rewrite <-Hz; by apply Hdep|].
    split; [intros H; by apply Qclt_not_eq in H|].
    split; [split; [lia|]; intros H; exfalso; revert H; by apply Qclt_not_le|].
    split; [intros H; exfalso; revert H; by apply Qclt_not_le|].
    split; [done|]. intros _ v Hv. lia. }
  assert (0 < qsum d) as Hs.
  { destruct (Qclt_le_dec 0 (qsum d)) as [|Hle]; [done|].
    destruct Hnz. by apply Qcle_antisym. }
  pose proof (encoding_bound_pos d Hs) as Hb.
  destruct (floor_log2_spec (qsum d) Hs) as [Hlo Hup].
  set (f := floor_log2 (qsum d)) in *.
  assert (2 ≤ qsum d → (1 ≤ f)%Z) as Hge2.
  { intros H2. rewrite <-pow2_1 in H2.
    assert (1 < f + 1)%Z by (apply pow2_lt_inv; by eapply Qcle_lt_trans). lia. }
  assert (qsum d < 2 → (f < 1)%Z) as Hlt2.
  { intros H2. rewrite <-pow2_1 in H2.
    apply pow2_lt_inv. by eapply Qcle_lt_trans. }
  assert (1 ≤ qsum d → (0 ≤ f)%Z) as Hge1.
  { intros H1. rewrite <-pow2_0 in H1.
    assert (0 < f + 1)%Z by (apply pow2_lt_inv; by eapply Qcle_lt_trans). lia. }
  assert (qsum d < 1 → (f < 0)%Z) as Hlt1.
  { intros H1. rewrite <-pow2_0 in H1.
    apply pow2_lt_inv. by eapply Qcle_lt_trans. }
  eexists. split; [exact Hb|]. split; [by apply Hdep|].
  split; [intros _; by exists f|].
  split; [split|].
  - intros Hn. destruct (Qclt_le_dec (qsum d) 2) as [Hlt|]; [|done].
    apply Hlt2 in Hlt. case_decide; [|lia].
    assert (f = 0)%Z as -> by lia. simpl in Hn. lia.
  - intros H2. apply Hge2 in H2. rewrite decide_True by lia.
    assert (2 ^ 1 ≤ 2 ^ f)%Z by (apply Z.pow_le_mono_r; lia). lia.
  - split; [|split].
    + intros H1 H2. apply Hge1 in H1. apply Hlt2 in H2.
      rewrite decide_True by done. by assert (f = 0)%Z as -> by lia.
    + intros H1. apply Hlt1 in H1. by rewrite decide_False by lia.
    + intros H2 v Hv. apply Hlt2 in H2. case_decide; [|lia].
      assert (f = 0)%Z as Hf by lia. rewrite Hf in Hv. simpl in Hv. lia.
Qed.

(** ** Logarithmic encoding *)

Lemma sumZ_app (u v : list Z) : sumZ (u ++ v) = (sumZ u + sumZ v)%Z.
Proof. induction u as [|x u IH]; simpl; [done|]. rewrite IH. lia. Qed.

Lemma log_weights_pow2 (k : nat) :
  log_weights (2 ^ Z.of_nat (S k) - 1) = map (λ i, 2 ^ Z.of_nat i)%Z (seq 0 (S k)).
Proof.
  unfold log_weights, num_variables.
  assert (Z.log2 (2 ^ Z.of_nat (S k) - 1) = Z.of_nat k) as ->.
  { apply Z.log2_unique; [lia|].
    rewrite Nat2Z.inj_succ, !Z.pow_succ_r by lia.
    assert (0 < 2 ^ Z.of_nat k)%Z by (apply Z.pow_pos_nonneg; lia). lia. }
  replace (Z.to_nat (Z.of_nat k + 1)) with (S k) by lia.
  replace (S k - 1)%nat with k by lia.
  rewrite seq_S, map_app. simpl. do 2 f_equal.
  rewrite Nat2Z.inj_succ, Z.pow_succ_r by lia. lia.
Qed.

Lemma length_log_weights (span : Z) :
  length (log_weights span) = num_variables span.
Proof.
  unfold log_weights. rewrite length_app, length_map, length_seq. simpl.
  unfold num_variables. pose proof (Z.log2_nonneg span). lia.
Qed.

(** The weighted sum of the first [k] binary digits of [v] is [v mod 2^k]. *)
Lemma decode_encode_mod (k : nat) (v : Z) :
  (0 ≤ v)%Z →
  decode 0 (map (λ i, 2 ^ Z.of_nat i)%Z (seq 0 k)) (encode k v)
  = (v mod 2 ^ Z.of_nat k)%Z.
Proof.
  intros Hv. unfold decode, encode. rewrite Z.add_0_l.
  induction k as [|k IH].
  - simpl. by rewrite Z.mod_1_r.
  - rewrite seq_S, !map_app. simpl.
    rewrite zip_with_app by (by rewrite !length_map).
    rewrite sumZ_app, IH. simpl.
    replace (Z.of_nat (S k)) with (Z.of_nat k + 1)%Z by lia.
    rewrite Z.pow_add_r, Z.pow_1_r by lia.
    rewrite Z.testbit_spec' by lia.
    assert (0 < 2 ^ Z.of_nat k)%Z by (apply Z.pow_pos_nonneg; lia).
    rewrite Z.rem_mul_r by lia. lia.
Qed.

Lemma eval_weighted_sum (σ : sample) (lbl : string) (acc : Expr)
    (ps : list (nat * Z)) :
  eval σ (foldl (λ acc p, Add acc (Mul (Num (Qc_of_Z p.2))
                                     (Binary (array_name lbl p.1)))) acc ps)
  = eval σ acc
    + Qc_of_Z (sumZ (map (λ p, p.2 * Z.b2z (σ (array_name lbl p.1)))%Z ps)).
Proof.
  revert acc. induction ps as [|[i w] ps IH]; intros acc; simpl.
  - rewrite Z2Qc_inj_0. ring.
  - rewrite IH. simpl. rewrite Z2Qc_inj_add, Z2Qc_inj_mul.
    destruct (σ (array_name lbl i)); simpl;
      rewrite ?Z2Qc_inj_1, ?Z2Qc_inj_0; ring.
Qed.

Lemma map_zip_weights (σ : sample) (lbl : string) (idx : list nat) (ws : list Z) :
  map (λ p : nat * Z, p.2 * Z.b2z (σ (array_name lbl p.1)))%Z (zip idx ws)
  = zip_with (λ w b, w * Z.b2z b)%Z ws (map (λ i, σ (array_name lbl i)) idx).
Proof.
  revert ws. induction idx as [|i idx IH]; intros [|w ws]; simpl; try done.
  by rewrite IH.
Qed.

(** The expression of a logarithmically encoded integer evaluates to the
    decode rule applied to the sample's digits. *)
Lemma eval_LogEncInteger (σ : sample) (lbl : string) (lower upper : Z)
    (x : Integer) :
  LogEncInteger lbl (lower, upper) = Ok x →
  label x = lbl ∧
  eval σ (express x)
  = Qc_of_Z (decode lower (log_weights (upper - lower))
               (bits_of σ lbl (num_variables (upper - lower)))).
Proof.
  unfold LogEncInteger. case_decide; [|done]. intros [= <-]. simpl.
  split; [done|]. unfold log_enc_express.
  rewrite eval_weighted_sum, map_zip_weights. simpl.
  unfold decode, bits_of. rewrite Z2Qc_inj_add.
  by rewrite length_log_weights.
Qed.

Lemma encoding_bound_shape (d : list Qc) (n : Z) :
  encoding_bound d = Ok n → n = (-1)%Z ∨ ∃ k : nat, n = (2 ^ Z.of_nat k - 1)%Z.
Proof.
  intros Hb.
  destruct (Qclt_le_dec 0 (qsum d)) as [Hs|Hs].
  - rewrite encoding_bound_pos in Hb by done. injection Hb as <-.
    case_decide; [|by left]. right.
    exists (Z.to_nat (floor_log2 (qsum d))). by rewrite Z2Nat.id.
  - destruct (decide (qsum d = 0)) as [Hz|Hnz].
    + rewrite encoding_bound_zero in Hb by done. injection Hb as <-. by left.
    + rewrite encoding_bound_negative in Hb; [done|].
      destruct (Qclt_le_dec (qsum d) 0) as [|Hle]; [done|].
      destruct Hnz. by apply Qcle_antisym.
Qed.

(** C5.  With the bound [n_max] of [_define_variables], every integer [v]
    of [[0, n_max]] is recovered from its positional binary digits by the
    weighted sum of the encoding; and the expression of a variable
    [LogEncInteger(label, (0, n_max))] takes the value [v] under every
    sample that gives the variable's binaries the digits of [v]. *)
Theorem C5_encoding_round_trip (d : list Qc) (n_max v : Z) :
  encoding_bound d = Ok n_max →
  (0 ≤ v ≤ n_max)%Z →
  decode 0 (log_weights n_max) (encode (length (log_weights n_max)) v) = v ∧
  ∀ (lbl : string) (x : Integer) (σ : sample),
    LogEncInteger lbl (0%Z, n_max) = Ok x →
    (∀ i : nat, σ (array_name lbl i) = Z.testbit v (Z.of_nat i)) →
    eval σ (express x) = Qc_of_Z v.
Proof.
  intros Hb Hv.
  assert (decode 0 (log_weights n_max) (encode (length (log_weights n_max)) v) = v)
    as Hrt.
  { destruct (encoding_bound_shape d n_max Hb) as [->|[[|k] ->]]; [lia| |].
    - simpl in Hv. assert (v = 0%Z) as -> by lia. reflexivity.
    - rewrite log_weights_pow2, length_map, length_seq.
      rewrite decode_encode_mod by lia.
      apply Z.mod_small. lia. }
  split; [done|].
  intros lbl x σ Hx Hσ.
  destruct (eval_LogEncInteger σ lbl 0 n_max x Hx) as [_ ->].
  f_equal. rewrite Z.sub_0_r. etrans; [|exact Hrt].
  f_equal. unfold bits_of, encode. rewrite length_log_weights.
  apply map_ext. intros i. apply Hσ.
Qed.

Lemma C5_encoding_round_trip_witness :
  decode 0 (log_weights 7) (encode (length (log_weights 7)) 5) = 5%Z.
Proof.
  apply (C5_encoding_round_trip [Qc_of_Z 9] 7 5); [by vm_compute|lia].
Defined.

(** ** Normalisation *)

Lemma deref_Ok (h : heap) (l : loc) (A : ndarray) :
  deref h l = Ok A ↔ h !! l = Some A.
Proof. unfold deref. destruct (h !! l); split; congruence. Qed.

Lemma np_copy_spec (h : heap) (l : loc) (A : ndarray) :
  h !! l = Some A →
  np_copy l h = Ok (fresh (dom h), <[fresh (dom h) := A]> h).
Proof. intros Hl. unfold np_copy, deref. by rewrite Hl. Qed.

Lemma fresh_not_allocated (h : heap) : h !! fresh (dom h) = None.
Proof. apply not_elem_of_dom, is_fresh. Qed.

Lemma elem_of_np_nonzero (v : list Qc) (i : nat) :
  i ∈ np_nonzero v ↔ (i < length v)%nat ∧ v !! i ≠ Some 0.
Proof.
  unfold np_nonzero. rewrite list_elem_of_filter, elem_of_seq.
  split; [intros [Hnz Hi]|intros [Hi Hnz]]; (split; [lia || done|lia || done]).
Qed.

Lemma np_take_in_range {A} (dflt : A) (l : list A) (mask : list nat) :
  (∀ i, i ∈ mask → (i < length l)%nat) →
  np_take l mask = Ok (map (λ i, default dflt (l !! i)) mask).
Proof.
  intros Hin. apply mapM_Ok_map. intros i Hi.
  destruct (lookup_lt_is_Some_2 l i (Hin i Hi)) as [a Ha].
  unfold getitem. by rewrite Ha.
Qed.

Lemma np_divide_rows_nonzero {I} (g : I → list Qc) (s : I → Qc) (mask : list I) :
  (∀ i, i ∈ mask → s i ≠ 0) →
  np_divide_rows (map g mask) (map s mask)
  = Ok (map (λ i, map (λ e, e / s i) (g i)) mask).
Proof.
  induction mask as [|i mask IH]; intros Hs; simpl; [done|].
  unfold row_div. rewrite decide_False by (apply Hs; left). simpl.
  rewrite IH; [done|]. intros j Hj. apply Hs. by right.
Qed.

Lemma np_put_lookup {A} (l : list A) (mask : list nat) (f : nat → A) (j : nat) :
  (∀ i, i ∈ mask → (i < length l)%nat) →
  np_put l mask (map f mask) !! j
  = if decide (j ∈ mask) then Some (f j) else l !! j.
Proof.
  unfold np_put. revert l. induction mask as [|i mask IH]; intros l Hin; simpl.
  - done.
  - rewrite IH by (intros k Hk; rewrite length_insert; apply Hin; by right).
    destruct (decide (j ∈ mask)) as [Hj|Hj].
    + rewrite decide_True; [done|]. by right.
    + destruct (decide (j = i)) as [->|Hne].
      * rewrite decide_True by left.
        apply list_lookup_insert_eq, Hin. left.
      * rewrite decide_False by (by intros [?|?]%elem_of_cons).
        by rewrite list_lookup_insert_ne.
Qed.

Lemma np_put_length {A} (l : list A) (mask : list nat) (new : list A) :
  length (np_put l mask new) = length l.
Proof.
  unfold np_put. revert l new.
  induction mask as [|i mask IH]; intros l [|a new]; simpl; try done.
  by rewrite IH, length_insert.
Qed.

(** The masked in-place division computes [norm_row] on every row. *)
Lemma masked_division_rows (rws : list (list Qc)) :
  let sums := map qsum rws in
  let mask := np_nonzero sums in
  np_put rws mask
    (map (λ i, map (λ e, e / default 0 (sums !! i)) (default [] (rws !! i))) mask)
  = map norm_row rws.
Proof.
  intros sums mask. apply list_eq. intros j.
  assert (∀ i, i ∈ mask → (i < length rws)%nat) as Hin.
  { intros i [Hi _]%elem_of_np_nonzero. unfold sums in Hi.
    by rewrite length_map in Hi. }
  rewrite np_put_lookup by done.
  rewrite list_lookup_fmap. unfold mask. unfold norm_row.
  destruct (rws !! j) as [r|] eqn:Hr; simpl.
  - assert (sums !! j = Some (qsum r)) as Hsj
      by (unfold sums; by rewrite list_lookup_fmap, Hr).
    case_decide as Hj.
    + apply elem_of_np_nonzero in Hj as [_ Hnz]. rewrite Hsj in Hnz |- *.
      rewrite decide_False by congruence. done.
    + rewrite decide_True; [done|].
      destruct (decide (qsum r = 0)) as [|Hnz]; [done|]. destruct Hj.
      apply elem_of_np_nonzero. split.
      * unfold sums. rewrite length_map. by eapply lookup_lt_Some.
      * rewrite Hsj. congruence.
  - rewrite decide_False; [done|].
    intros Hj. apply Hin in Hj. apply lookup_ge_None in Hr. lia.
Qed.

(** [_normalize] never raises: it allocates one new array holding the
    normalised rows and leaves every existing object as it was. *)
Lemma _normalize_spec (h : heap) (matrix : loc) (A : ndarray) :
  h !! matrix = Some A →
  _normalize matrix h
  = Ok (fresh (dom h), <[fresh (dom h) := normalized A]> h).
Proof.
  intros Hm. unfold _normalize.
  rewrite (proj2 (deref_Ok h matrix A) Hm). simpl.
  rewrite (np_copy_spec h matrix A Hm). simpl.
  unfold deref. rewrite lookup_insert_eq. simpl.
  set (sums := np_sum_axis1 A). set (mask := np_nonzero sums).
  assert (∀ i, i ∈ mask → (i < length sums)%nat ∧ sums !! i ≠ Some 0) as Hmask
    by (intros i; apply elem_of_np_nonzero).
  assert (length sums = length (rows A)) as Hlen
    by (unfold sums, np_sum_axis1; by rewrite length_map).
  rewrite (np_take_in_range [] (rows A) mask)
    by (intros i Hi; destruct (Hmask i Hi); lia). simpl.
  rewrite (np_take_in_range 0 sums mask)
    by (intros i Hi; by destruct (Hmask i Hi)). simpl.
  rewrite (np_divide_rows_nonzero (λ i, default [] (rows A !! i))
             (λ i, default 0 (sums !! i))).
  2:{ intros i Hi. destruct (Hmask i Hi) as [Hlt Hnz].
      destruct (lookup_lt_is_Some_2 sums i Hlt) as [s Hs].
      rewrite Hs in Hnz |- *. simpl. congruence. }
  simpl. rewrite insert_insert_eq. do 3 f_equal.
  unfold normalized. f_equal. apply masked_division_rows.
Qed.

Lemma qsum_map_div (r : list Qc) (s : Qc) :
  s ≠ 0 → qsum (map (λ e, e / s) r) = qsum r / s.
Proof.
  intros Hs. induction r as [|x r IH]; simpl.
  - rewrite qsum_nil. by field.
  - rewrite !qsum_cons, IH. by field.
Qed.

Lemma map_div_1 (r : list Qc) : map (λ e, e / 1) r = r.
Proof.
  induction r as [|x r IH]; simpl; [done|]. rewrite IH. f_equal.
  field. done.
Qed.

Lemma norm_row_zero (r : list Qc) : qsum r = 0 → norm_row r = r.
Proof. intros Hs. unfold norm_row. by rewrite decide_True. Qed.

Lemma norm_row_nonzero (r : list Qc) :
  qsum r ≠ 0 → norm_row r = map (λ e, e / qsum r) r.
Proof. intros Hs. unfold norm_row. by rewrite decide_False. Qed.

Lemma norm_row_idemp (r : list Qc) : norm_row (norm_row r) = norm_row r.
Proof.
  destruct (decide (qsum r = 0)) as [Hs|Hs].
  - by rewrite !(norm_row_zero r Hs).
  - rewrite (norm_row_nonzero r Hs).
    assert (qsum (map (λ e, e / qsum r) r) = 1) as H1.
    { rewrite qsum_map_div by done. by field. }
    rewrite norm_row_nonzero by (by rewrite H1).
    rewrite H1. apply map_div_1.
Qed.

Lemma normalized_idemp (A : ndarray) : normalized (normalized A) = normalized A.
Proof.
  unfold normalized. simpl. f_equal. rewrite <-list_fmap_compose.
  apply list_fmap_ext. intros _ r _. apply norm_row_idemp.
Qed.

Lemma __init___spec (h : heap) (response : loc) (A : ndarray) (d : list Qc) (lam : Qc) :
  h !! response = Some A →
  __init__ response d lam h
  = if np_allclose_1 (np_sum_axis1 A)
    then Ok (mkQUnfoldQUBO response d lam, h)
    else Ok (mkQUnfoldQUBO (fresh (dom h)) d lam,
             <[fresh (dom h) := normalized A]> h).
Proof.
  intros Hr. unfold __init__, _is_normalized. simpl.
  rewrite (proj2 (deref_Ok h response A) Hr). simpl.
  destruct (np_allclose_1 (np_sum_axis1 A)); simpl; [done|].
  by rewrite (_normalize_spec h response A Hr).
Qed.

(** C4.  [_normalize] returns for every matrix, whatever its rows: no
    division by zero is attempted, a row whose sum is zero (in particular
    an all-zero row) is the same row in the result, and a row with a
    nonzero sum is divided by its own sum; construction succeeds as well. *)
Theorem C4_zero_row_safety (h : heap) (matrix : loc) (A : ndarray) :
  h !! matrix = Some A →
  ∃ (l' : loc) (N : ndarray),
    _normalize matrix h = Ok (l', <[l' := N]> h) ∧
    ncols N = ncols A ∧ nrows N = nrows A ∧
    (∀ (i : nat) (r : list Qc), rows A !! i = Some r →
       (Forall (λ e, e = 0) r → rows N !! i = Some r ∧ qsum r = 0) ∧
       (qsum r = 0 → rows N !! i = Some r) ∧
       (qsum r ≠ 0 → rows N !! i = Some (map (λ e, e / qsum r) r))) ∧
    ∀ (d : list Qc) (lam : Qc), is_Ok (__init__ matrix d lam h).
Proof.
  intros Hm. exists (fresh (dom h)), (normalized A).
  split; [by apply _normalize_spec|].
  split; [done|]. split; [unfold nrows; simpl; by rewrite length_map|].
  split.
  - intros i r Hr.
    assert (rows (normalized A) !! i = Some (norm_row r)) as Hn
      by (simpl; by rewrite list_lookup_fmap, Hr).
    rewrite Hn. split; [|split].
    + intros Hz. assert (qsum r = 0) as Hs.
      { clear Hr Hn. induction Hz as [|x r -> _ IH]; [done|].
        rewrite qsum_cons, IH. ring. }
      by rewrite norm_row_zero.
    + intros Hs. by rewrite norm_row_zero.
    + intros Hs. by rewrite norm_row_nonzero.
  - intros d lam. rewrite (__init___spec h matrix A d lam Hm).
    destruct (np_allclose_1 _); by eexists.
Qed.

Lemma C4_zero_row_safety_witness :
  ∃ (l' : loc) (N : ndarray),
    _normalize 0%nat (heap_with counts_with_zero_row)
    = Ok (l', <[l' := N]> (heap_with counts_with_zero_row)) ∧
    rows N !! 0%nat = Some [Qc_of_Z 0; Qc_of_Z 0] ∧
    rows N !! 1%nat
    = Some (map (λ e, e / qsum [Qc_of_Z 1; Qc_of_Z 3]) [Qc_of_Z 1; Qc_of_Z 3]).
Proof.
  destruct (C4_zero_row_safety (heap_with counts_with_zero_row) 0%nat
              counts_with_zero_row eq_refl)
    as (l' & N & Hn & _ & _ & Hrows & _).
  exists l', N. split; [exact Hn|]. split.
  - apply (Hrows 0%nat [Qc_of_Z 0; Qc_of_Z 0] eq_refl).
    repeat constructor.
  - apply (Hrows 1%nat [Qc_of_Z 1; Qc_of_Z 3] eq_refl).
    by vm_compute.
Defined.

(** C3.  A matrix whose row sums are all within [np.allclose]'s tolerance
    of 1 is kept by the construction as the very same object, the heap
    untouched; and normalising twice gives the matrix that normalising once
    gives, both for [_normalize] itself and for the normalisation step of
    the construction (rows of zero sum are passed over in both passes). *)
Theorem C3_normalization_idempotent (h : heap) (matrix : loc) (A : ndarray) :
  h !! matrix = Some A →
  (np_allclose_1 (np_sum_axis1 A) = true →
   ∀ (d : list Qc) (lam : Qc),
     __init__ matrix d lam h = Ok (mkQUnfoldQUBO matrix d lam, h)) ∧
  (∃ (l1 : loc) (h1 : heap) (N : ndarray),
     _normalize matrix h = Ok (l1, h1) ∧ h1 !! l1 = Some N ∧
     ∃ (l2 : loc) (h2 : heap),
       _normalize l1 h1 = Ok (l2, h2) ∧ h2 !! l2 = Some N) ∧
  (∀ (d : list Qc) (lam : Qc),
     ∃ (s1 : QUnfoldQUBO) (h1 : heap) (N : ndarray),
       __init__ matrix d lam h = Ok (s1, h1) ∧ h1 !! self_R s1 = Some N ∧
       ∃ (s2 : QUnfoldQUBO) (h2 : heap),
         __init__ (self_R s1) d lam h1 = Ok (s2, h2) ∧
         h2 !! self_R s2 = Some N).
Proof.
  intros Hm. split; [|split].
  - intros Hn d lam. by rewrite (__init___spec h matrix A d lam Hm), Hn.
  - eexists _, _, _. split; [by apply _normalize_spec|].
    split; [by rewrite lookup_insert_eq|].
    eexists _, _. split.
    + apply _normalize_spec. by rewrite lookup_insert_eq.
    + by rewrite lookup_insert_eq, normalized_idemp.
  - intros d lam. rewrite (__init___spec h matrix A d lam Hm).
    destruct (np_allclose_1 (np_sum_axis1 A)) eqn:Hn.
    + eexists _, _, _. split; [done|]. split; [exact Hm|]. simpl.
      eexists _, _. rewrite (__init___spec h matrix A d lam Hm), Hn.
      split; [done|]. exact Hm.
    + eexists _, _, _. split; [done|]. simpl.
      split; [by rewrite lookup_insert_eq|].
      set (h1 := <[fresh (dom h) := normalized A]> h).
      assert (h1 !! fresh (dom h) = Some (normalized A)) as H1
        by (unfold h1; by rewrite lookup_insert_eq).
      pose proof (__init___spec h1 _ _ d lam H1) as Hi.
      destruct (np_allclose_1 (np_sum_axis1 (normalized A))).
      * eexists _, _. split; [exact Hi|]. exact H1.
      * eexists _, _. split; [exact Hi|]. simpl.
        by rewrite lookup_insert_eq, normalized_idemp.
Qed.

Lemma C3_normalization_idempotent_witness :
  ∃ (l1 : loc) (h1 : heap) (N : ndarray),
    _normalize 0%nat (heap_with counts_with_zero_row) = Ok (l1, h1) ∧
    h1 !! l1 = Some N ∧
    ∃ (l2 : loc) (h2 : heap),
      _normalize l1 h1 = Ok (l2, h2) ∧ h2 !! l2 = Some N.
Proof.
  exact (proj1 (proj2 (C3_normalization_idempotent
                         (heap_with counts_with_zero_row) 0%nat
                         counts_with_zero_row eq_refl))).
Defined.

(** C9.  Normalisation works on a copy.  [_normalize] returns an address
    that was not allocated before, hence different from the caller's, and
    afterwards every object that existed before, the caller's matrix among
    them, holds the value it held; the same is true of the whole
    construction, whose [self.R] is a new object whenever the matrix had to
    be normalised. *)
Theorem C9_caller_matrix_unchanged (h : heap) (response : loc) (A : ndarray)
    (d : list Qc) (lam : Qc) :
  h !! response = Some A →
  (∃ (l' : loc) (h' : heap),
     _normalize response h = Ok (l', h') ∧
     (l' ∉ dom h) ∧ (l' ≠ response) ∧
     h' !! response = Some A ∧
     ∀ l : loc, l ∈ dom h → h' !! l = h !! l) ∧
  (∃ (self : QUnfoldQUBO) (h' : heap),
     __init__ response d lam h = Ok (self, h') ∧
     h' !! response = Some A ∧
     (∀ l : loc, l ∈ dom h → h' !! l = h !! l) ∧
     (np_allclose_1 (np_sum_axis1 A) = false →
      (self_R self ≠ response) ∧ (self_R self ∉ dom h))).
Proof.
  unfold loc in *. intros Hr.
  assert (fresh (dom h) ∉ dom h) as Hfresh by apply is_fresh.
  assert (fresh (dom h) ≠ response) as Hne.
  { intros Heq. rewrite Heq in Hfresh. apply Hfresh, elem_of_dom. by eexists. }
  assert (∀ l : loc, l ∈ dom h →
            <[fresh (dom h) := normalized A]> h !! l = h !! l) as Hframe.
  { intros l Hl. apply lookup_insert_ne. intros Heq. by rewrite Heq in Hfresh. }
  split.
  - eexists _, _. split; [by apply _normalize_spec|].
    split; [done|]. split; [done|]. split; [|done].
    by rewrite lookup_insert_ne.
  - rewrite (__init___spec h response A d lam Hr).
    destruct (np_allclose_1 (np_sum_axis1 A)).
    + eexists _, _. split; [done|]. split; [done|]. split; [done|]. done.
    + eexists _, _. split; [done|]. split; [by rewrite lookup_insert_ne|].
      split; [done|]. intros _. simpl. done.
Qed.

Lemma C9_caller_matrix_unchanged_witness :
  ∃ (self : QUnfoldQUBO) (h' : heap),
    __init__ 0%nat [Qc_of_Z 4] 0 (heap_with counts_with_zero_row) = Ok (self, h') ∧
    h' !! 0%nat = Some counts_with_zero_row ∧
    self_R self ≠ 0%nat.
Proof.
  destruct (C9_caller_matrix_unchanged (heap_with counts_with_zero_row) 0%nat
              counts_with_zero_row [Qc_of_Z 4] 0 eq_refl)
    as [_ (self & h' & Hi & Hsame & _ & Hnew)].
  exists self, h'. split; [exact Hi|]. split; [exact Hsame|].
  apply Hnew. by vm_compute.
Defined.

(** ** Arrays *)

Lemma sum_range_ext (n : nat) (f g : nat → Qc) :
  (∀ k, (k < n)%nat → f k = g k) → sum_range n f = sum_range n g.
Proof.
  intros Hfg. unfold sum_range. f_equal. apply map_ext_in.
  intros k Hk%in_seq. apply Hfg. lia.
Qed.

Lemma sum_range_S (n : nat) (f : nat → Qc) :
  sum_range (S n) f = sum_range n f + f n.
Proof.
  unfold sum_range. rewrite seq_S, map_app, qsum_app. simpl.
  rewrite qsum_cons, qsum_nil. ring.
Qed.

Lemma nrows_np_build (r c : nat) (f : nat → nat → Qc) : nrows (np_build r c f) = r.
Proof. unfold nrows, np_build. simpl. by rewrite length_map, length_seq. Qed.

Lemma ncols_np_build (r c : nat) (f : nat → nat → Qc) : ncols (np_build r c f) = c.
Proof. done. Qed.

Lemma rows_np_build_lookup (r c : nat) (f : nat → nat → Qc) (i : nat) :
  (i < r)%nat → rows (np_build r c f) !! i = Some (map (f i) (seq 0 c)).
Proof.
  intros Hi. unfold np_build. simpl.
  rewrite list_lookup_fmap, lookup_seq_lt by done. done.
Qed.

Lemma entry_np_build (r c : nat) (f : nat → nat → Qc) (i j : nat) :
  (i < r)%nat → (j < c)%nat → entry (np_build r c f) i j = f i j.
Proof.
  intros Hi Hj. unfold entry. rewrite rows_np_build_lookup by done. simpl.
  rewrite list_lookup_fmap, lookup_seq_lt by done. done.
Qed.

Lemma getitem2_np_build (r c : nat) (f : nat → nat → Qc) (i j : nat) :
  (i < r)%nat → (j < c)%nat → getitem2 (np_build r c f) i j = Ok (f i j).
Proof.
  intros Hi Hj. unfold getitem2, getitem.
  rewrite rows_np_build_lookup by done. simpl.
  rewrite list_lookup_fmap, lookup_seq_lt by done. done.
Qed.

Lemma nrows_np_T (A : ndarray) : nrows (np_T A) = ncols A.
Proof. apply nrows_np_build. Qed.

Lemma ncols_np_T (A : ndarray) : ncols (np_T A) = nrows A.
Proof. done. Qed.

Lemma entry_np_T (A : ndarray) (i j : nat) :
  (i < ncols A)%nat → (j < nrows A)%nat → entry (np_T A) i j = entry A j i.
Proof. intros. unfold np_T. by rewrite entry_np_build. Qed.

Lemma entry_np_scale (c : Qc) (A : ndarray) (i j : nat) :
  entry (np_scale c A) i j = c * entry A i j.
Proof.
  unfold entry, np_scale. simpl. rewrite list_lookup_fmap.
  destruct (rows A !! i) as [r|]; simpl; [|ring].
  rewrite list_lookup_fmap. destruct (r !! j); simpl; [done|ring].
Qed.

Lemma nrows_np_scale (c : Qc) (A : ndarray) : nrows (np_scale c A) = nrows A.
Proof. unfold nrows, np_scale. simpl. by rewrite length_map. Qed.

Lemma bcast_entry_in_range (A : ndarray) (i j : nat) :
  (i < nrows A)%nat → (j < ncols A)%nat → bcast_entry A i j = entry A i j.
Proof.
  intros Hi Hj. unfold bcast_entry.
  repeat case_decide; f_equal; lia.
Qed.

Lemma bcast_dim_same (n : nat) : bcast_dim n n = Some n.
Proof. unfold bcast_dim. by rewrite decide_True. Qed.

(** Addition of two arrays of one shape. *)
Lemma np_add_same_shape (A B : ndarray) (r c : nat) :
  nrows A = r → nrows B = r → ncols A = c → ncols B = c →
  np_add A B = Ok (np_build r c (λ i j, bcast_entry A i j + bcast_entry B i j)).
Proof.
  intros HA HB HA' HB'. unfold np_add.
  by rewrite HA, HB, HA', HB', !bcast_dim_same.
Qed.

Lemma entry_np_diag (v : list Qc) (k : Z) (i j : nat) :
  (i < length v + Z.abs_nat k)%nat → (j < length v + Z.abs_nat k)%nat →
  entry (np_diag v k) i j
  = if decide (Z.of_nat j - Z.of_nat i = k)%Z
    then default 0 (v !! (i `min` j)) else 0.
Proof. intros Hi Hj. unfold np_diag. by rewrite entry_np_build. Qed.

(** The array [_get_laplacian] returns is the second-difference matrix. *)
Lemma _get_laplacian_spec (n : nat) :
  (0 < n)%nat →
  ∃ G : ndarray,
    _get_laplacian n = Ok G ∧ nrows G = n ∧ ncols G = n ∧
    ∀ i j : nat, (i < n)%nat → (j < n)%nat → entry G i j = laplacian_entry i j.
Proof.
  intros Hn. unfold _get_laplacian, np_ones.
  rewrite decide_True by lia. simpl.
  rewrite decide_True by lia. simpl.
  rewrite Nat2Z.id. replace (Z.to_nat (Z.of_nat n - 1)) with (n - 1)%nat by lia.
  set (diag := map (λ e, e * Qc_of_Z (-2)) (replicate n 1)).
  set (ones := replicate (n - 1) (1 : Qc)).
  assert (length diag = n) as Hld
    by (unfold diag; by rewrite length_map, length_replicate).
  assert (length ones = (n - 1)%nat) as Hlo
    by (unfold ones; by rewrite length_replicate).
  set (D0 := np_diag diag 0). set (D1 := np_diag ones 1).
  set (D2 := np_diag ones (-1)).
  assert (nrows D0 = n ∧ ncols D0 = n) as [Hr0 Hc0].
  { unfold D0, np_diag. rewrite nrows_np_build, ncols_np_build, Hld. simpl. lia. }
  assert (nrows D1 = n ∧ ncols D1 = n) as [Hr1 Hc1].
  { unfold D1, np_diag. rewrite nrows_np_build, ncols_np_build, Hlo. simpl. lia. }
  assert (nrows D2 = n ∧ ncols D2 = n) as [Hr2 Hc2].
  { unfold D2, np_diag. rewrite nrows_np_build, ncols_np_build, Hlo. simpl. lia. }
  rewrite (np_add_same_shape D0 D1 n n) by done. simpl.
  rewrite (np_add_same_shape _ D2 n n)
    by (done || apply nrows_np_build).
  eexists. split; [done|]. rewrite nrows_np_build, ncols_np_build.
  split; [done|]. split; [done|].
  intros i j Hi Hj. rewrite entry_np_build by done.
  rewrite (bcast_entry_in_range (np_build _ _ _))
    by (by rewrite ?nrows_np_build, ?ncols_np_build).
  rewrite entry_np_build by done.
  rewrite !bcast_entry_in_range by lia.
  unfold D0, D1, D2. rewrite !entry_np_diag by (rewrite ?Hld, ?Hlo; simpl; lia).
  unfold laplacian_entry.
  destruct (decide (i = j)) as [->|Hij].
  - rewrite decide_True by lia. rewrite !decide_False by lia.
    rewrite Nat.min_id. unfold diag.
    rewrite list_lookup_fmap, lookup_replicate_2 by done. simpl. ring.
  - rewrite (decide_False (P := (Z.of_nat j - Z.of_nat i = 0)%Z)) by lia.
    destruct (decide (j = S i ∨ i = S j)) as [[->| ->]|Hn1].
    + rewrite decide_True by lia. rewrite decide_False by lia.
      replace (i `min` S i)%nat with i by lia.
      unfold ones. rewrite lookup_replicate_2 by lia. simpl. ring.
    + rewrite decide_False by lia. rewrite decide_True by lia.
      replace (S j `min` j)%nat with j by lia.
      unfold ones. rewrite lookup_replicate_2 by lia. simpl. ring.
    + rewrite !decide_False by lia. ring.
Qed.

(** ** The Hamiltonian *)

Lemma foldlM_Ok {A B} (f : B → A → result B) (g : B → A → B) (b : B) (l : list A) :
  (∀ b a, a ∈ l → f b a = Ok (g b a)) → foldlM f b l = Ok (foldl g b l).
Proof.
  revert b. induction l as [|a l IH]; intros b Hf; simpl; [done|].
  rewrite Hf by left. simpl. apply IH. intros b' a' Ha'. apply Hf. by right.
Qed.

Lemma eval_foldl_Add {A} (σ : sample) (t : A → Expr) (h : Expr) (l : list A) :
  eval σ (foldl (λ h i, Add h (t i)) h l)
  = eval σ h + qsum (map (λ i, eval σ (t i)) l).
Proof.
  revert h. induction l as [|a l IH]; intros h; simpl.
  - rewrite qsum_nil. ring.
  - rewrite IH, qsum_cons. simpl. ring.
Qed.

Lemma eval_foldl_Add2 {A B} (σ : sample) (t : A → B → Expr) (h : Expr)
    (l : list A) (l' : list B) :
  eval σ (foldl (λ h i, foldl (λ h j, Add h (t i j)) h l') h l)
  = eval σ h + qsum (map (λ i, qsum (map (λ j, eval σ (t i j)) l')) l).
Proof.
  revert h. induction l as [|a l IH]; intros h; simpl.
  - rewrite qsum_nil. ring.
  - rewrite IH, qsum_cons, eval_foldl_Add. ring.
Qed.

Lemma getitem_var (x : list Integer) (i : nat) :
  (i < length x)%nat →
  ∃ xi, getitem x i = Ok xi ∧ express xi = var_expr x i.
Proof.
  intros Hi. destruct (lookup_lt_is_Some_2 x i Hi) as [xi Hxi].
  exists xi. unfold getitem, var_expr. by rewrite Hxi.
Qed.

(** Line 56: the linear coefficients. *)
Lemma linear_vector_spec (Rm : ndarray) (d : list Qc) :
  nrows Rm = length d →
  ∃ Rtd : list Qc,
    np_matvec (np_T Rm) d = Ok Rtd ∧
    length Rtd = ncols Rm ∧
    ∀ i : nat, (i < ncols Rm)%nat →
      getitem (map (Qcmult (Qc_of_Z (-2))) Rtd) i = Ok (linear_coeff Rm d i).
Proof.
  intros Hd. unfold np_matvec. rewrite ncols_np_T, decide_True by done.
  eexists. split; [done|]. rewrite nrows_np_T.
  split; [by rewrite length_map, length_seq|].
  intros i Hi. unfold getitem.
  rewrite !list_lookup_fmap, lookup_seq_lt by done. simpl.
  unfold linear_coeff. do 2 f_equal. apply sum_range_ext.
  intros k Hk. by rewrite entry_np_T.
Qed.

(** Lines 60-61: the quadratic coefficients. *)
Lemma quadratic_matrix_spec (Rm : ndarray) (lam : Qc) (n : nat) :
  ncols Rm = n → (0 < n)%nat →
  ∃ G RtR GtG B : ndarray,
    _get_laplacian n = Ok G ∧
    np_matmul (np_T Rm) Rm = Ok RtR ∧
    np_matmul (np_T G) G = Ok GtG ∧
    np_add RtR (np_scale lam GtG) = Ok B ∧
    (∀ i j : nat, (i < n)%nat → (j < n)%nat →
       entry G i j = laplacian_entry i j ∧
       entry RtR i j = RtR_entry Rm i j ∧
       entry GtG i j = GtG_entry n i j ∧
       getitem2 B i j = Ok (quadratic_coeff Rm lam n i j)).
Proof.
  intros Hc Hn.
  destruct (_get_laplacian_spec n Hn) as (G & HG & HGr & HGc & HGe).
  set (RtR := np_build n n (λ i j,
                sum_range (nrows Rm) (λ k, entry (np_T Rm) i k * entry Rm k j))).
  set (GtG := np_build n n (λ i j,
                sum_range n (λ k, entry (np_T G) i k * entry G k j))).
  assert (np_matmul (np_T Rm) Rm = Ok RtR) as HmR.
  { unfold np_matmul. rewrite ncols_np_T, decide_True by done.
    by rewrite nrows_np_T, Hc. }
  assert (np_matmul (np_T G) G = Ok GtG) as HmG.
  { unfold np_matmul. rewrite ncols_np_T, decide_True by done.
    by rewrite nrows_np_T, HGc, HGr. }
  assert (∀ i j : nat, (i < n)%nat → (j < n)%nat →
            entry RtR i j = RtR_entry Rm i j) as HRtR.
  { intros i j Hi Hj. unfold RtR. rewrite entry_np_build by done.
    apply sum_range_ext. intros k Hk. rewrite entry_np_T by lia. done. }
  assert (∀ i j : nat, (i < n)%nat → (j < n)%nat →
            entry GtG i j = GtG_entry n i j) as HGtG.
  { intros i j Hi Hj. unfold GtG. rewrite entry_np_build by done.
    apply sum_range_ext. intros k Hk.
    rewrite entry_np_T by lia. by rewrite !HGe. }
  exists G, RtR, GtG. eexists.
  split; [done|]. split; [done|]. split; [done|].
  split.
  { apply (np_add_same_shape RtR (np_scale lam GtG) n n);
      [apply nrows_np_build|rewrite nrows_np_scale; apply nrows_np_build
      |done|done]. }
  intros i j Hi Hj.
  split; [by apply HGe|]. split; [by apply HRtR|]. split; [by apply HGtG|].
  rewrite getitem2_np_build by done.
  rewrite !bcast_entry_in_range
    by (rewrite ?nrows_np_scale; unfold RtR, GtG;
        rewrite ?nrows_np_build; simpl; lia).
  rewrite entry_np_scale, HRtR, HGtG by done. done.
Qed.

Lemma _define_hamiltonian_spec (Rm : ndarray) (d : list Qc) (lam : Qc)
    (x : list Integer) :
  nrows Rm = length d → length x = ncols Rm → (0 < length x)%nat →
  _define_hamiltonian Rm d lam x
  = Ok (hamiltonian_of (length x) (linear_coeff Rm d)
          (quadratic_coeff Rm lam (length x)) x).
Proof.
  intros Hd Hx Hn. unfold _define_hamiltonian.
  destruct (linear_vector_spec Rm d Hd) as (Rtd & -> & Hlen & Ha).
  cbn [mbind result_bind].
  rewrite (foldlM_Ok _ (λ h i, Add h (Mul (Num (linear_coeff Rm d i)) (var_expr x i)))).
  2:{ intros h i [_ Hi]%elem_of_seq.
      rewrite Ha by lia. cbn [mbind result_bind].
      destruct (getitem_var x i) as (xi & -> & Hxi); [lia|].
      cbn [mbind result_bind]. by rewrite Hxi. }
  cbn [mbind result_bind].
  destruct (quadratic_matrix_spec Rm lam (length x) (eq_sym Hx) Hn)
    as (G & RtR & GtG & B & -> & -> & HGtG & HB & Hent).
  cbn [mbind result_bind]. rewrite HGtG. cbn [mbind result_bind].
  rewrite HB. cbn [mbind result_bind].
  apply foldlM_Ok. intros h i [_ Hi]%elem_of_seq.
  apply foldlM_Ok. intros h' j [_ Hj]%elem_of_seq.
  destruct (Hent i j) as (_ & _ & _ & ->); [lia..|].
  cbn [mbind result_bind].
  destruct (getitem_var x i) as (xi & -> & Hxi); [lia|].
  cbn [mbind result_bind].
  destruct (getitem_var x j) as (xj & -> & Hxj); [lia|].
  cbn [mbind result_bind]. by rewrite Hxi, Hxj.
Qed.

Lemma eval_hamiltonian_of (σ : sample) (n : nat) (a : nat → Qc)
    (B : nat → nat → Qc) (x : list Integer) :
  eval σ (hamiltonian_of n a B x) = quadratic_form n a B (var_value σ x).
Proof.
  unfold hamiltonian_of, quadratic_form, sum_range, var_value.
  rewrite eval_foldl_Add2, eval_foldl_Add. simpl. ring.
Qed.

(** C2.  For a response with as many rows as the measured vector has
    entries and a non-empty sequence of variables, one per column:
    [_get_laplacian] returns the square second-difference matrix [G];
    the arrays of lines 56-61 hold [RᵗR], [GᵗG] and
    [B = RᵗR + lam·GᵗG]; the Hamiltonian is built without error and under
    every sample its value is [aᵗx + xᵗBx] with [a = -2·Rᵗd]; [B] is affine
    in [lam], and at [lam = 0] it is [RᵗR]. *)
Theorem C2_hamiltonian_coefficients (Rm : ndarray) (d : list Qc) (lam : Qc)
    (x : list Integer) :
  nrows Rm = length d → length x = ncols Rm → (0 < length x)%nat →
  (∃ G RtR GtG B : ndarray,
     _get_laplacian (length x) = Ok G ∧
     np_matmul (np_T Rm) Rm = Ok RtR ∧
     np_matmul (np_T G) G = Ok GtG ∧
     np_add RtR (np_scale lam GtG) = Ok B ∧
     (∀ i j : nat, (i < length x)%nat → (j < length x)%nat →
        entry G i j = laplacian_entry i j ∧
        entry RtR i j = RtR_entry Rm i j ∧
        entry GtG i j = GtG_entry (length x) i j ∧
        getitem2 B i j = Ok (entry RtR i j + lam * entry GtG i j) ∧
        (lam = 0 → getitem2 B i j = Ok (entry RtR i j)))) ∧
  (∃ H : Expr,
     _define_hamiltonian Rm d lam x = Ok H ∧
     ∀ σ : sample,
       eval σ H
       = quadratic_form (length x) (linear_coeff Rm d)
           (quadratic_coeff Rm lam (length x)) (var_value σ x)) ∧
  (∀ i j : nat,
     quadratic_coeff Rm lam (length x) i j
     = quadratic_coeff Rm 0 (length x) i j + lam * GtG_entry (length x) i j) ∧
  (∀ i j : nat, quadratic_coeff Rm 0 (length x) i j = RtR_entry Rm i j).
Proof.
  intros Hd Hx Hn. split; [|split; [|split]].
  - destruct (quadratic_matrix_spec Rm lam (length x) (eq_sym Hx) Hn)
      as (G & RtR & GtG & B & HG & HmR & HmG & HB & Hent).
    exists G, RtR, GtG, B. do 4 (split; [done|]).
    intros i j Hi Hj. destruct (Hent i j Hi Hj) as (HeG & HeR & HeGG & HeB).
    do 3 (split; [done|]). rewrite HeR, HeGG.
    split; [done|]. intros ->. rewrite HeB. unfold quadratic_coeff.
    f_equal. ring.
  - eexists. split; [by apply _define_hamiltonian_spec|].
    intros σ. apply eval_hamiltonian_of.
  - intros i j. unfold quadratic_coeff. ring.
  - intros i j. unfold quadratic_coeff. ring.
Qed.

Lemma C2_hamiltonian_coefficients_witness :
  ∃ H : Expr,
    _define_hamiltonian identity3 [Qc_of_Z 10; Qc_of_Z 0; Qc_of_Z 0] 0
      [mkInteger "x0" (0, 7)%Z (Binary "p");
       mkInteger "x1" (0, 7)%Z (Binary "q");
       mkInteger "x2" (0, 7)%Z (Binary "r")] = Ok H.
Proof.
  destruct (C2_hamiltonian_coefficients identity3
              [Qc_of_Z 10; Qc_of_Z 0; Qc_of_Z 0] 0
              [mkInteger "x0" (0, 7)%Z (Binary "p");
               mkInteger "x1" (0, 7)%Z (Binary "q");
               mkInteger "x2" (0, 7)%Z (Binary "r")])
    as (_ & (H & HH & _) & _); [reflexivity|reflexivity|simpl; lia|].
  by exists H.
Defined.

(** ** The model *)

Lemma mapM_Ok_inv {A B} (f : A → result B) (g : A → B) (l : list A) (bs : list B) :
  mapM f l = Ok bs →
  (∀ a b, a ∈ l → f a = Ok b → b = g a) →
  bs = map g l.
Proof.
  revert bs. induction l as [|a l IH]; intros bs; simpl.
  - by intros [= <-].
  - destruct (f a) as [b|] eqn:Hfa; simpl; [|done].
    destruct (mapM f l) as [bs'|]; simpl; [|done].
    intros [= <-] Hg. f_equal.
    + apply Hg; [left|done].
    + apply IH; [done|]. intros a' b' Ha'. apply Hg. by right.
Qed.

Lemma mapM_Ok_elem {A B} (f : A → result B) (l : list A) (bs : list B) (a : A) :
  mapM f l = Ok bs → a ∈ l → is_Ok (f a).
Proof.
  revert bs. induction l as [|a' l IH]; intros bs; simpl.
  - intros _ Ha. by apply elem_of_nil in Ha.
  - destruct (f a') as [b|] eqn:Hfa; simpl; [|done].
    destruct (mapM f l) as [bs'|]; simpl; [|done].
    intros _ [->|Ha]%elem_of_cons; [by exists b|]. by eapply IH.
Qed.

Lemma foldlM_Ok_inv {A B} (f : B → A → result B) (g : B → A → B) (b : B)
    (l : list A) (r : B) :
  foldlM f b l = Ok r →
  (∀ b a r', a ∈ l → f b a = Ok r' → r' = g b a) →
  r = foldl g b l.
Proof.
  revert b. induction l as [|a l IH]; intros b; simpl.
  - by intros [= <-].
  - destruct (f b a) as [b'|] eqn:Hfa; simpl; [|done].
    intros Hr Hg. rewrite <-(Hg b a b') by (done || left).
    apply IH; [done|]. intros b0 a0 r0 Ha0. apply Hg. by right.
Qed.

Lemma LogEncInteger_Ok (lbl : string) (n : Z) :
  (0 < n)%Z →
  LogEncInteger lbl (0%Z, n)
  = Ok (mkInteger lbl (0%Z, n) (SubH (log_enc_express lbl 0 (log_weights n)) lbl)).
Proof.
  intros Hn. unfold LogEncInteger. rewrite decide_True by done.
  by rewrite Z.sub_0_r.
Qed.

Lemma LogEncInteger_Ok_inv (lbl : string) (lower upper : Z) (x : Integer) :
  LogEncInteger lbl (lower, upper) = Ok x → (lower < upper)%Z.
Proof. unfold LogEncInteger. by case_decide. Qed.

Lemma length_variables (n : Z) (m : nat) : length (variables n m) = m.
Proof. unfold variables. by rewrite length_map, length_seq. Qed.

Lemma _define_variables_Ok (d : list Qc) (n : Z) :
  encoding_bound d = Ok n → (0 < n)%Z →
  _define_variables d = Ok (variables n (length d)).
Proof.
  intros Hb Hn. unfold _define_variables. rewrite Hb. simpl.
  apply mapM_Ok_map. intros i _. by apply LogEncInteger_Ok.
Qed.

Lemma _define_variables_inv (d : list Qc) (x : list Integer) :
  _define_variables d = Ok x →
  ∃ n : Z, encoding_bound d = Ok n ∧ x = variables n (length d) ∧
           ((0 < length d)%nat → (0 < n)%Z).
Proof.
  unfold _define_variables. intros (n & Hb & Hx)%bind_Ok.
  exists n. split; [done|].
  assert ((0 < length d)%nat → (0 < n)%Z) as Hpos.
  { intros Hd.
    destruct (mapM_Ok_elem _ _ _ 0%nat Hx) as [x0 Hx0].
    - apply elem_of_seq. lia.
    - by apply LogEncInteger_Ok_inv in Hx0. }
  split; [|done].
  apply (mapM_Ok_inv _ _ _ _ Hx). intros i b [_ Hi]%elem_of_seq.
  rewrite LogEncInteger_Ok by (apply Hpos; lia). by intros [= <-].
Qed.

Lemma _define_hamiltonian_inv (Rm : ndarray) (d : list Qc) (lam : Qc)
    (x : list Integer) (H : Expr) :
  _define_hamiltonian Rm d lam x = Ok H →
  (0 < length x)%nat ∧
  ∃ (a : nat → Qc) (B : nat → nat → Qc), H = hamiltonian_of (length x) a B x.
Proof.
  unfold _define_hamiltonian.
  intros (Rtd & _ & (h1 & Hh1 & (G & HG & (RtR & _ & (GtG & _ &
           (B & _ & HH)%bind_Ok)%bind_Ok)%bind_Ok)%bind_Ok)%bind_Ok)%bind_Ok.
  split.
  { destruct (length x); [|lia]. by vm_compute in HG. }
  exists (λ i, default 0 (map (Qcmult (Qc_of_Z (-2))) Rtd !! i)), (entry B).
  unfold hamiltonian_of.
  apply (foldlM_Ok_inv _ (λ h i,
           Add h (Mul (Num (default 0 (map (Qcmult (Qc_of_Z (-2))) Rtd !! i)))
                      (var_expr x i)))) in Hh1.
  2:{ intros h i r _. unfold getitem, var_expr.
      destruct (map _ Rtd !! i) as [ai|]; simpl; [|done].
      destruct (x !! i) as [xi|]; simpl; [|done]. by intros [= <-]. }
  rewrite <-Hh1.
  apply (foldlM_Ok_inv _ _ _ _ _ HH). intros h i r _ Hr.
  apply (foldlM_Ok_inv _ _ _ _ _ Hr). clear. intros h j r _.
  unfold getitem2, getitem, var_expr, entry.
  destruct (rows B !! i) as [row|]; simpl; [|done].
  destruct (row !! j) as [bij|]; simpl; [|done].
  destruct (x !! i) as [xi|]; simpl; [|done].
  destruct (x !! j) as [xj|]; simpl; [|done]. by intros [= <-].
Qed.

Lemma labels_of_variables (n : Z) (m : nat) :
  mapM (λ i, label <$> getitem (variables n m) i) (seq 0 (length (variables n m)))
  = Ok (map xlabel (seq 0 m)).
Proof.
  rewrite length_variables. apply mapM_Ok_map.
  intros i [_ Hi]%elem_of_seq. unfold getitem, variables.
  rewrite list_lookup_fmap, lookup_seq_lt by lia. done.
Qed.

(** What a successfully built model looks like. *)
Lemma _define_pyqubo_model_inv (Rm : ndarray) (d : list Qc) (lam : Qc)
    (labels : list string) (model : Expr) :
  _define_pyqubo_model Rm d lam = Ok (labels, model) →
  ∃ (n : Z) (a : nat → Qc) (B : nat → nat → Qc),
    encoding_bound d = Ok n ∧ (0 < n)%Z ∧ (0 < length d)%nat ∧
    labels = map xlabel (seq 0 (length d)) ∧
    model = hamiltonian_of (length d) a B (variables n (length d)).
Proof.
  unfold _define_pyqubo_model.
  intros (x & Hx & (h & Hh & (ls & Hls & [= <- <-])%bind_Ok)%bind_Ok)%bind_Ok.
  destruct (_define_variables_inv d x Hx) as (n & Hb & -> & Hpos).
  destruct (_define_hamiltonian_inv _ _ _ _ _ Hh) as (Hlen & a & B & ->).
  rewrite labels_of_variables in Hls. injection Hls as <-.
  rewrite length_variables in *.
  exists n, a, B. auto.
Qed.

(** ** Sub-Hamiltonians of the model *)

Lemma eval_log_enc_express (σ : sample) (lbl : string) (lower : Z) (ws : list Z) :
  eval σ (log_enc_express lbl lower ws)
  = Qc_of_Z (decode lower ws (bits_of σ lbl (length ws))).
Proof.
  unfold log_enc_express. rewrite eval_weighted_sum, map_zip_weights. simpl.
  unfold decode, bits_of. by rewrite Z2Qc_inj_add.
Qed.

Lemma subh_of_log_enc_express (σ : sample) (lbl : string) (lower : Z) (ws : list Z) :
  subh_of σ (log_enc_express lbl lower ws) = ∅.
Proof.
  unfold log_enc_express.
  assert (subh_of σ (Num (Qc_of_Z lower)) = ∅) as Hacc by done.
  revert Hacc. generalize (Num (Qc_of_Z lower)) (zip (seq 0 (length ws)) ws).
  intros acc ps. revert acc.
  induction ps as [|p ps IH]; intros acc Hacc; simpl; [done|].
  apply IH. simpl. rewrite Hacc. by rewrite !(left_id_L ∅ (∪)).
Qed.

Lemma xlabel_inj (i j : nat) : xlabel i = xlabel j → i = j.
Proof.
  unfold xlabel. intros [= Hp]. change (pretty i = pretty j) in Hp.
  by apply (inj pretty) in Hp.
Qed.

Lemma var_expr_variables (n : Z) (m i : nat) :
  (i < m)%nat →
  var_expr (variables n m) i
  = SubH (log_enc_express (xlabel i) 0 (log_weights n)) (xlabel i).
Proof.
  intros Hi. unfold var_expr, variables.
  rewrite list_lookup_fmap, lookup_seq_lt by done. done.
Qed.

Lemma subh_of_var (σ : sample) (n : Z) (m i : nat) :
  (i < m)%nat →
  subh_of σ (var_expr (variables n m) i)
  = {[ xlabel i := decoded_value σ n i ]}.
Proof.
  intros Hi. rewrite var_expr_variables by done. simpl.
  rewrite subh_of_log_enc_express, eval_log_enc_express.
  unfold decoded_value. by rewrite length_log_weights.
Qed.

Lemma subh_sound_empty σ n m : subh_sound σ n m ∅.
Proof. intros l v Hl. by rewrite lookup_empty in Hl. Qed.

Lemma subh_sound_union σ n m (M1 M2 : gmap string Qc) :
  subh_sound σ n m M1 → subh_sound σ n m M2 → subh_sound σ n m (M1 ∪ M2).
Proof.
  intros H1 H2 l v [Hl|[_ Hl]]%lookup_union_Some_raw; [by apply H1|by apply H2].
Qed.

Lemma subh_sound_var σ n m i :
  (i < m)%nat → subh_sound σ n m (subh_of σ (var_expr (variables n m) i)).
Proof.
  intros Hi. rewrite subh_of_var by done.
  intros l v [<- <-]%lookup_singleton_Some. by exists i.
Qed.

Lemma subh_sound_foldl {A} σ n m (t : A → Expr) (h : Expr) (l : list A) :
  subh_sound σ n m (subh_of σ h) →
  (∀ i, i ∈ l → subh_sound σ n m (subh_of σ (t i))) →
  subh_sound σ n m (subh_of σ (foldl (λ h i, Add h (t i)) h l)).
Proof.
  revert h. induction l as [|i l IH]; intros h Hh Ht; simpl; [done|].
  apply IH.
  - simpl. apply subh_sound_union; [done|]. apply Ht. left.
  - intros j Hj. apply Ht. by right.
Qed.

Lemma subh_sound_foldl2 {A} σ n m (l2 : A → list A) (t : A → A → Expr)
    (h : Expr) (l : list A) :
  subh_sound σ n m (subh_of σ h) →
  (∀ i j, i ∈ l → j ∈ l2 i → subh_sound σ n m (subh_of σ (t i j))) →
  subh_sound σ n m
    (subh_of σ (foldl (λ h i, foldl (λ h j, Add h (t i j)) h (l2 i)) h l)).
Proof.
  revert h. induction l as [|i l IH]; intros h Hh Ht; simpl; [done|].
  apply IH.
  - apply subh_sound_foldl; [done|]. intros j Hj. apply Ht; [left|done].
  - intros i' j Hi'. apply Ht. by right.
Qed.

Lemma subh_covered_foldl {A} (σ : sample) (k : string) (t : A → Expr)
    (h : Expr) (l : list A) :
  is_Some (subh_of σ h !! k) →
  is_Some (subh_of σ (foldl (λ h i, Add h (t i)) h l) !! k).
Proof.
  revert h. induction l as [|i l IH]; intros h Hh; simpl; [done|].
  apply IH. simpl. apply lookup_union_is_Some. by left.
Qed.

Lemma subh_covered_foldl_elem {A} (σ : sample) (k : string) (t : A → Expr)
    (h : Expr) (l : list A) (i : A) :
  i ∈ l → is_Some (subh_of σ (t i) !! k) →
  is_Some (subh_of σ (foldl (λ h i, Add h (t i)) h l) !! k).
Proof.
  revert h. induction l as [|j l IH]; intros h Hi Ht; simpl.
  - by apply elem_of_nil in Hi.
  - apply elem_of_cons in Hi as [->|Hi].
    + apply subh_covered_foldl. simpl. apply lookup_union_is_Some. by right.
    + by apply IH.
Qed.

Lemma subh_covered_foldl2 {A} (σ : sample) (k : string) (l2 : A → list A)
    (t : A → A → Expr) (h : Expr) (l : list A) :
  is_Some (subh_of σ h !! k) →
  is_Some (subh_of σ (foldl (λ h i, foldl (λ h j, Add h (t i j)) h (l2 i)) h l)
           !! k).
Proof.
  revert h. induction l as [|i l IH]; intros h Hh; simpl; [done|].
  apply IH. by apply subh_covered_foldl.
Qed.

(** The [subh] dictionary of a decoded sample holds, under the label of
    each variable, the value the decode rule gives it. *)
Lemma subh_of_hamiltonian (σ : sample) (n : Z) (m : nat) (a : nat → Qc)
    (B : nat → nat → Qc) (k : nat) :
  (k < m)%nat →
  subh_of σ (hamiltonian_of m a B (variables n m)) !! xlabel k
  = Some (decoded_value σ n k).
Proof.
  intros Hk. unfold hamiltonian_of.
  set (lin := foldl _ (Num 0) (seq 0 m)).
  assert (is_Some (subh_of σ lin !! xlabel k)) as Hcov.
  { unfold lin. apply (subh_covered_foldl_elem σ (xlabel k)
      (λ i, Mul (Num (a i)) (var_expr (variables n m) i)) (Num 0) (seq 0 m) k).
    - apply elem_of_seq. lia.
    - simpl. rewrite subh_of_var by done. apply lookup_union_is_Some. right.
      rewrite lookup_singleton_eq. by eexists. }
  assert (subh_sound σ n m (subh_of σ lin)) as Hsnd.
  { unfold lin. apply (subh_sound_foldl σ n m
      (λ i, Mul (Num (a i)) (var_expr (variables n m) i))).
    - apply subh_sound_empty.
    - intros i [_ Hi]%elem_of_seq. simpl.
      apply subh_sound_union; [apply subh_sound_empty|].
      apply subh_sound_var. lia. }
  pose proof (subh_covered_foldl2 σ (xlabel k) (λ _, seq 0 m)
    (λ i j, Mul (Mul (Num (B i j)) (var_expr (variables n m) i))
                (var_expr (variables n m) j)) lin (seq 0 m) Hcov) as [v Hv].
  rewrite Hv. f_equal.
  assert (subh_sound σ n m (subh_of σ
    (foldl (λ h i, foldl (λ h j, Add h
       (Mul (Mul (Num (B i j)) (var_expr (variables n m) i))
            (var_expr (variables n m) j))) h (seq 0 m)) lin (seq 0 m)))) as Hall.
  { apply (subh_sound_foldl2 σ n m (λ _, seq 0 m)
      (λ i j, Mul (Mul (Num (B i j)) (var_expr (variables n m) i))
                  (var_expr (variables n m) j))); [done|].
    intros i j [_ Hi]%elem_of_seq [_ Hj]%elem_of_seq. simpl.
    apply subh_sound_union; [apply subh_sound_union|].
    - apply subh_sound_empty.
    - apply subh_sound_var. lia.
    - apply subh_sound_var. lia. }
  destruct (Hall _ _ Hv) as (k' & _ & Hlbl & ->).
  by apply xlabel_inj in Hlbl as <-.
Qed.

(** ** Selection and decoding *)

Lemma py_min_spec {A} (key : A → Qc) (l : list A) :
  l ≠ [] →
  ∃ (i : nat) (b : A),
    py_min key l = Ok b ∧ l !! i = Some b ∧
    (∀ (j : nat) (c : A), l !! j = Some c → key b ≤ key c) ∧
    (∀ (j : nat) (c : A), (j < i)%nat → l !! j = Some c → key b < key c).
Proof.
  destruct l as [|a l]; [done|]. intros _. unfold py_min.
  induction l as [|s l IH] using rev_ind.
  - exists 0%nat, a. simpl. split; [done|]. split; [done|]. split.
    + intros [|j] c; simpl; [|by rewrite lookup_nil].
      intros [= <-]. apply Qcle_refl.
    + intros j c Hj. lia.
  - destruct IH as (i & b & [= Hb] & Hi & Hmin & Hfirst).
    rewrite foldl_app. simpl. rewrite Hb.
    pose proof (lookup_lt_Some _ _ _ Hi) as Hlt.
    change (a :: l ++ [s]) with ((a :: l) ++ [s]).
    assert (∀ (j : nat) (c : A), ((a :: l) ++ [s]) !! j = Some c →
              (a :: l) !! j = Some c ∨ (j = length (a :: l) ∧ c = s)) as Hcases.
    { intros j c Hj. apply lookup_app_Some in Hj as [Hj|[Hge Hj]]; [by left|].
      right. apply list_lookup_singleton_Some in Hj as [Hj <-].
      split; [lia|done]. }
    case_decide as Hs.
    + exists (length (a :: l)), s. split; [done|].
      split; [by rewrite list_lookup_middle|]. split.
      * intros j c [Hj|[_ ->]]%Hcases; [|apply Qcle_refl].
        apply Qclt_le_weak. eapply Qclt_le_trans; [exact Hs|]. by eapply Hmin.
      * intros j c Hj [Hc|[-> _]]%Hcases; [|lia].
        eapply Qclt_le_trans; [exact Hs|]. by eapply Hmin.
    + exists i, b. split; [done|].
      split; [by rewrite lookup_app_l|]. split.
      * intros j c [Hj|[_ ->]]%Hcases; [by eapply Hmin|].
        by apply Qcnot_lt_le.
      * intros j c Hj [Hc|[-> _]]%Hcases; [by eapply Hfirst|lia].
Qed.

Lemma mapM_map {A B C} (f : B → result C) (g : A → B) (l : list A) :
  mapM f (map g l) = mapM (λ a, f (g a)) l.
Proof. induction l as [|a l IH]; simpl; [done|]. by rewrite IH. Qed.

(** Decoding against a model built by [_define_pyqubo_model]. *)
Lemma decode_best_spec (n : Z) (m : nat) (a : nat → Qc) (B : nat → nat → Qc)
    (ss : list sample) :
  ss ≠ [] →
  let model := hamiltonian_of m a B (variables n m) in
  ∃ (i : nat) (σ : sample),
    ss !! i = Some σ ∧
    (∀ (j : nat) (σ' : sample), ss !! j = Some σ' → eval σ model ≤ eval σ' model) ∧
    (∀ (j : nat) (σ' : sample), (j < i)%nat → ss !! j = Some σ' →
       eval σ model < eval σ' model) ∧
    decode_best (map xlabel (seq 0 m)) model ss
    = Ok (map (decoded_value σ n) (seq 0 m)).
Proof.
  intros Hss model. unfold decode_best, decode_sampleset.
  set (mk := λ σ, mkDecodedSample σ (eval σ model) (subh_of σ model)).
  destruct (py_min_spec energy (map mk ss)) as (i & b & -> & Hi & Hmin & Hfirst).
  { by destruct ss. }
  apply list_lookup_fmap_Some in Hi as (σ & -> & Hσ).
  exists i, σ. split; [done|]. split; [|split].
  - intros j σ' Hj. apply (Hmin j (mk σ')). by rewrite list_lookup_fmap, Hj.
  - intros j σ' Hlt Hj. apply (Hfirst j (mk σ')); [done|].
    by rewrite list_lookup_fmap, Hj.
  - cbn [mbind result_bind]. rewrite mapM_map. apply mapM_Ok_map.
    intros k [_ Hk]%elem_of_seq. unfold subh_item, mk. simpl.
    unfold model. rewrite subh_of_hamiltonian by lia. done.
Qed.





(** ** The solving methods *)

Lemma decode_best_length (labels : list string) (model : Expr)
    (ss : list sample) (v : list Qc) :
  decode_best labels model ss = Ok v → length v = length labels.
Proof.
  unfold decode_best. intros (best & _ & Hv)%bind_Ok.
  by apply mapM_length in Hv.
Qed.

(** Whatever the sampler, a vector returned by a solving method has one
    entry per entry of the measured vector. *)
Lemma solve_simulated_annealing_length (self : QUnfoldQUBO) (h : heap)
    (sampler : sa_sampler) (num_reads : Z) (seed : option Z) (v : list Qc) :
  solve_simulated_annealing self h sampler num_reads seed = Ok v →
  length v = length (self_d self).
Proof.
  unfold solve_simulated_annealing.
  intros (Rm & _ & ([labels model] & Hm & (ss & _ & Hv)%bind_Ok)%bind_Ok)%bind_Ok.
  apply decode_best_length in Hv. rewrite Hv.
  destruct (_define_pyqubo_model_inv _ _ _ _ _ Hm) as (n & a & B & _ & _ & _ & -> & _).
  by rewrite length_map, length_seq.
Qed.

Lemma solve_hybrid_sampler_length (self : QUnfoldQUBO) (h : heap)
    (sampler : hybrid_sampler) (v : list Qc) :
  solve_hybrid_sampler self h sampler = Ok v →
  length v = length (self_d self).
Proof.
  unfold solve_hybrid_sampler.
  intros (Rm & _ & ([labels model] & Hm & (ss & _ & Hv)%bind_Ok)%bind_Ok)%bind_Ok.
  apply decode_best_length in Hv. rewrite Hv.
  destruct (_define_pyqubo_model_inv _ _ _ _ _ Hm) as (n & a & B & _ & _ & _ & -> & _).
  by rewrite length_map, length_seq.
Qed.

(** C1.  On a 1 x 2 response with a measured vector of length 1 both
    solving methods return a vector of length 1, although the response has
    2 columns; on a 2 x 1 response the Hamiltonian builder indexes the
    coefficient vector [a] (of length 1) at 1 and raises [IndexError]. *)
Theorem C1_result_length_is_measured_length :
  nrows wide_response = length [Qc_of_Z 4] ∧
  ncols wide_response = 2%nat ∧
  length <$> construct_and_anneal wide_response [Qc_of_Z 4] 0
               (fixed_sa_sampler [all_zero]) 100 None = Ok 1%nat ∧
  length <$> construct_and_hybrid wide_response [Qc_of_Z 4] 0
               (fixed_hybrid_sampler [all_zero]) = Ok 1%nat ∧
  nrows tall_response = length [Qc_of_Z 2; Qc_of_Z 2] ∧
  construct_and_anneal tall_response [Qc_of_Z 2; Qc_of_Z 2] 0
    (fixed_sa_sampler [all_zero]) 100 None = Raise IndexError.
Proof. repeat split; by vm_compute. Qed.

(** ** Input validation *)

Lemma __init___Ok (h : heap) (response : loc) (A : ndarray) (d : list Qc) (lam : Qc) :
  h !! response = Some A →
  ∃ (self : QUnfoldQUBO) (h' : heap) (Rm : ndarray),
    __init__ response d lam h = Ok (self, h') ∧
    self_d self = d ∧ self_lam self = lam ∧
    h' !! self_R self = Some Rm ∧ nrows Rm = nrows A ∧ ncols Rm = ncols A.
Proof.
  intros Hr. rewrite (__init___spec h response A d lam Hr).
  destruct (np_allclose_1 (np_sum_axis1 A)).
  - by exists (mkQUnfoldQUBO response d lam), h, A.
  - eexists _, _, (normalized A). split; [done|]. simpl.
    rewrite lookup_insert_eq. unfold nrows. simpl. by rewrite length_map.
Qed.

(** With mismatched shapes the product [Rᵗd] of line 56 raises. *)
Lemma _define_hamiltonian_mismatch (Rm : ndarray) (d : list Qc) (lam : Qc)
    (x : list Integer) :
  nrows Rm ≠ length d → _define_hamiltonian Rm d lam x = Raise ValueError.
Proof.
  intros Hne. unfold _define_hamiltonian, np_matvec.
  rewrite ncols_np_T, decide_False by done. done.
Qed.

Lemma _define_pyqubo_model_mismatch (Rm : ndarray) (d : list Qc) (lam : Qc) :
  nrows Rm ≠ length d → is_Raise (_define_pyqubo_model Rm d lam).
Proof.
  intros Hne. unfold _define_pyqubo_model.
  destruct (_define_variables d) as [x|e]; simpl; [|by exists e].
  rewrite _define_hamiltonian_mismatch by done. by exists ValueError.
Qed.

Lemma _define_pyqubo_model_empty (Rm : ndarray) (lam : Qc) :
  _define_pyqubo_model Rm [] lam = Raise ValueError.
Proof.
  unfold _define_pyqubo_model.
  replace (_define_variables []) with (Ok (@nil Integer)) by (by vm_compute).
  cbn [mbind result_bind]. unfold _define_hamiltonian.
  destruct (np_matvec (np_T Rm) []) as [Rtd|e] eqn:HR.
  - done.
  - unfold np_matvec in HR. case_decide; [done|]. by injection HR as <-.
Qed.

(** C7, as the spec states it, fails: a 3 x 3 response with a measured
    vector of length 1 is accepted by the construction, and the variables
    are created for it. *)
Lemma C7_construction_accepts_mismatch :
  nrows identity3 ≠ length [Qc_of_Z 4] ∧
  ¬ is_Raise (__init__ 0%nat [Qc_of_Z 4] 0 (heap_with identity3)) ∧
  is_Ok (_define_variables [Qc_of_Z 4]).
Proof.
  split; [by vm_compute|]. split.
  - intros [e He]. by vm_compute in He.
  - eexists. by vm_compute.
Qed.

(** [_define_variables] runs before anything looks at the response. *)
Lemma _define_variables_length (d : list Qc) (x : list Integer) :
  _define_variables d = Ok x → length x = length d.
Proof.
  intros Hx. destruct (_define_variables_inv d x Hx) as (n & _ & -> & _).
  apply length_variables.
Qed.

Lemma _define_variables_no_range (d : list Qc) (n : Z) :
  encoding_bound d = Ok n → (n ≤ 0)%Z → d ≠ [] →
  _define_variables d = Raise AssertionError.
Proof.
  intros Hb Hn Hd. unfold _define_variables. rewrite Hb.
  cbn [mbind result_bind]. destruct d as [|q d]; [done|].
  cbn [length seq mapM].
  assert (LogEncInteger (xlabel 0) (0%Z, n) = Raise AssertionError) as ->; [|done].
  unfold LogEncInteger. by rewrite decide_False by lia.
Qed.

Lemma _define_variables_no_bound (d : list Qc) (e : error) :
  encoding_bound d = Raise e → _define_variables d = Raise e.
Proof. intros Hb. unfold _define_variables. by rewrite Hb. Qed.

Lemma solve_raises_with_variables (self : QUnfoldQUBO) (h : heap) (Rm : ndarray)
    (e : error) :
  h !! self_R self = Some Rm →
  _define_variables (self_d self) = Raise e →
  (∀ (sampler : sa_sampler) (num_reads : Z) (seed : option Z),
     solve_simulated_annealing self h sampler num_reads seed = Raise e) ∧
  (∀ sampler : hybrid_sampler, solve_hybrid_sampler self h sampler = Raise e).
Proof.
  intros HRm Hx.
  split; intros; unfold solve_simulated_annealing, solve_hybrid_sampler;
    rewrite (proj2 (deref_Ok _ _ _) HRm); cbn [mbind result_bind];
    unfold _define_pyqubo_model; by rewrite Hx.
Qed.

Lemma solve_raises_on_mismatch (self : QUnfoldQUBO) (h : heap) (Rm : ndarray)
    (x : list Integer) :
  h !! self_R self = Some Rm →
  nrows Rm ≠ length (self_d self) →
  _define_variables (self_d self) = Ok x →
  (∀ (sampler : sa_sampler) (num_reads : Z) (seed : option Z),
     solve_simulated_annealing self h sampler num_reads seed = Raise ValueError) ∧
  (∀ sampler : hybrid_sampler,
     solve_hybrid_sampler self h sampler = Raise ValueError).
Proof.
  intros HRm Hne Hx.
  split; intros; unfold solve_simulated_annealing, solve_hybrid_sampler;
    rewrite (proj2 (deref_Ok _ _ _) HRm); cbn [mbind result_bind];
    unfold _define_pyqubo_model; rewrite Hx; cbn [mbind result_bind];
    by rewrite _define_hamiltonian_mismatch.
Qed.

(** C7, amended.  When the response's row count differs from the length of
    the measured vector, the construction still succeeds: no shape is
    checked there.  The mismatch is met only inside a solve call, and
    there only after [_define_variables] has run.  If [_define_variables]
    raises (no bound: [int] of a not-a-number; or a bound that is not
    positive, which [LogEncInteger] refuses with [AssertionError]), the
    solve call raises that error and the shapes are never compared.
    Otherwise the variables have been created, one for each entry of the
    measured vector, and the product [Rᵗd] of the Hamiltonian builder
    raises [ValueError].  Either way no solving method returns a vector. *)
Theorem C7_mismatch_met_after_variables (h : heap) (response : loc)
    (A : ndarray) (d : list Qc) (lam : Qc) :
  h !! response = Some A →
  nrows A ≠ length d →
  ∃ (self : QUnfoldQUBO) (h' : heap) (Rm : ndarray),
    __init__ response d lam h = Ok (self, h') ∧
    h' !! self_R self = Some Rm ∧
    (∀ x : list Integer, _define_hamiltonian Rm d lam x = Raise ValueError) ∧
    (∀ x : list Integer, _define_variables d = Ok x → length x = length d) ∧
    (∀ n : Z, encoding_bound d = Ok n → (0 < n)%Z →
       ∃ x : list Integer,
         _define_variables d = Ok x ∧ length x = length d ∧
         _define_pyqubo_model Rm d lam = Raise ValueError) ∧
    (∀ n : Z, encoding_bound d = Ok n → (n ≤ 0)%Z → d ≠ [] →
       _define_variables d = Raise AssertionError) ∧
    (∀ e : error, encoding_bound d = Raise e → _define_variables d = Raise e) ∧
    (∀ (sampler : sa_sampler) (num_reads : Z) (seed : option Z),
       solve_simulated_annealing self h' sampler num_reads seed
       = match _define_variables d with
         | Ok _ => Raise ValueError
         | Raise e => Raise e
         end) ∧
    (∀ sampler : hybrid_sampler,
       solve_hybrid_sampler self h' sampler
       = match _define_variables d with
         | Ok _ => Raise ValueError
         | Raise e => Raise e
         end) ∧
    (∀ (sampler : sa_sampler) (num_reads : Z) (seed : option Z),
       is_Raise (solve_simulated_annealing self h' sampler num_reads seed)) ∧
    (∀ sampler : hybrid_sampler,
       is_Raise (solve_hybrid_sampler self h' sampler)).
Proof.
  intros Hr Hne.
  destruct (__init___Ok h response A d lam Hr)
    as (self & h' & Rm & Hinit & Hd & Hlam & HRm & Hrows & _).
  assert (nrows Rm ≠ length d) as Hne' by congruence.
  assert ((∀ (sampler : sa_sampler) (num_reads : Z) (seed : option Z),
             solve_simulated_annealing self h' sampler num_reads seed
             = match _define_variables d with
               | Ok _ => Raise ValueError
               | Raise e => Raise e
               end) ∧
          (∀ sampler : hybrid_sampler,
             solve_hybrid_sampler self h' sampler
             = match _define_variables d with
               | Ok _ => Raise ValueError
               | Raise e => Raise e
               end)) as [Hsa Hhy].
  { destruct (_define_variables d) as [x|e] eqn:Hx.
    - apply (solve_raises_on_mismatch self h' Rm x HRm); by rewrite Hd.
    - apply (solve_raises_with_variables self h' Rm e HRm). by rewrite Hd. }
  exists self, h', Rm. split; [done|]. split; [done|].
  split; [intros x; by apply _define_hamiltonian_mismatch|].
  split; [apply _define_variables_length|].
  split.
  { intros n Hb Hn. exists (variables n (length d)).
    split; [by apply _define_variables_Ok|].
    split; [apply length_variables|].
    unfold _define_pyqubo_model. rewrite (_define_variables_Ok d n Hb Hn).
    cbn [mbind result_bind]. by rewrite _define_hamiltonian_mismatch. }
  split; [apply _define_variables_no_range|].
  split; [apply _define_variables_no_bound|].
  split; [exact Hsa|]. split; [exact Hhy|]. split.
  - intros sampler num_reads seed. rewrite Hsa.
    destruct (_define_variables d) as [x|e]; by eexists.
  - intros sampler. rewrite Hhy.
    destruct (_define_variables d) as [x|e]; by eexists.
Qed.

Lemma C7_mismatch_met_after_variables_witness :
  (∃ (self : QUnfoldQUBO) (h' : heap),
     __init__ 0%nat [Qc_of_Z 4] 0 (heap_with identity3) = Ok (self, h') ∧
     solve_simulated_annealing self h' (fixed_sa_sampler [all_zero]) 100 None
     = Raise ValueError) ∧
  (∃ (self : QUnfoldQUBO) (h' : heap),
     __init__ 0%nat [Qc_of_Z 1] 0 (heap_with identity3) = Ok (self, h') ∧
     solve_simulated_annealing self h' (fixed_sa_sampler [all_zero]) 100 None
     = Raise AssertionError).
Proof.
  split.
  - destruct (C7_mismatch_met_after_variables (heap_with identity3) 0%nat
                identity3 [Qc_of_Z 4] 0 eq_refl)
      as (self & h' & Rm & Hinit & _ & _ & _ & _ & _ & _ & Hsa & _);
      [by vm_compute|].
    exists self, h'. split; [exact Hinit|].
    rewrite Hsa.
    destruct (_define_variables [Qc_of_Z 4]) as [x|e] eqn:Hx;
      [reflexivity|by vm_compute in Hx].
  - destruct (C7_mismatch_met_after_variables (heap_with identity3) 0%nat
                identity3 [Qc_of_Z 1] 0 eq_refl)
      as (self & h' & Rm & Hinit & _ & _ & _ & _ & _ & _ & Hsa & _);
      [by vm_compute|].
    exists self, h'. split; [exact Hinit|].
    rewrite Hsa.
    destruct (_define_variables [Qc_of_Z 1]) as [x|e] eqn:Hx;
      [by vm_compute in Hx|].
    vm_compute in Hx. by injection Hx as <-.
Defined.

(** C8, as the spec states it, fails: a construction with [lam = -1] is
    accepted and solved; a call with [num_reads = 0] returns a vector when
    the sampler does not object; and when the sampler does refuse
    [num_reads = 0], a failure of the model construction is raised first. *)
Lemma C8_invalid_configuration_accepted :
  Qc_of_Z (-1) < 0 ∧
  ¬ is_Raise (__init__ 0%nat [Qc_of_Z 10; Qc_of_Z 0; Qc_of_Z 0] (Qc_of_Z (-1))
                (heap_with identity3)) ∧
  is_Ok (construct_and_anneal identity3 [Qc_of_Z 10; Qc_of_Z 0; Qc_of_Z 0]
           (Qc_of_Z (-1)) (fixed_sa_sampler [all_zero]) 100 None) ∧
  is_Ok (construct_and_anneal identity3 [Qc_of_Z 10; Qc_of_Z 0; Qc_of_Z 0] 0
           (fixed_sa_sampler [all_zero]) 0 None) ∧
  construct_and_anneal identity3 [Qc_of_Z 10; Qc_of_Z 0; Qc_of_Z 0] 0
    (strict_sa_sampler [all_zero]) 0 None = Raise ValueError ∧
  construct_and_anneal tall_response [Qc_of_Z 2; Qc_of_Z 2] 0
    (strict_sa_sampler [all_zero]) 0 None = Raise IndexError.
Proof.
  split; [by vm_compute|]. split; [intros [e He]; by vm_compute in He|].
  split; [eexists; by vm_compute|]. split; [eexists; by vm_compute|].
  split; by vm_compute.
Qed.

(** C8, amended.  The core validates neither parameter.  The construction
    succeeds for every [lam] and stores it unchanged.
    [solve_simulated_annealing] builds the model first: if that raises, the
    call raises that error whatever [num_reads] is; otherwise [num_reads]
    and [seed] are handed unchanged to the sampler, and the call returns
    what decoding the sampler's answer returns (the sampler's error if it
    raises). *)
Theorem C8_configuration_not_validated (h : heap) (response : loc)
    (A : ndarray) (d : list Qc) (lam : Qc) :
  h !! response = Some A →
  ∃ (self : QUnfoldQUBO) (h' : heap) (Rm : ndarray),
    __init__ response d lam h = Ok (self, h') ∧
    self_lam self = lam ∧ self_d self = d ∧
    h' !! self_R self = Some Rm ∧
    ∀ (sampler : sa_sampler) (num_reads : Z) (seed : option Z),
      match _define_pyqubo_model Rm d lam with
      | Raise e =>
          solve_simulated_annealing self h' sampler num_reads seed = Raise e
      | Ok (labels, model) =>
          solve_simulated_annealing self h' sampler num_reads seed
          = sampler model num_reads seed ≫= decode_best labels model
      end.
Proof.
  intros Hr.
  destruct (__init___Ok h response A d lam Hr)
    as (self & h' & Rm & Hinit & Hd & Hlam & HRm & _).
  exists self, h', Rm. do 4 (split; [done|]).
  intros sampler num_reads seed. unfold solve_simulated_annealing.
  rewrite (proj2 (deref_Ok _ _ _) HRm). cbn [mbind result_bind].
  rewrite Hd, Hlam.
  by destruct (_define_pyqubo_model Rm d lam) as [[labels model]|e].
Qed.

Lemma C8_configuration_not_validated_witness :
  ∃ (self : QUnfoldQUBO) (h' : heap),
    __init__ 0%nat [Qc_of_Z 10; Qc_of_Z 0; Qc_of_Z 0] (Qc_of_Z (-1))
      (heap_with identity3) = Ok (self, h') ∧
    self_lam self = Qc_of_Z (-1).
Proof.
  destruct (C8_configuration_not_validated (heap_with identity3) 0%nat
              identity3 [Qc_of_Z 10; Qc_of_Z 0; Qc_of_Z 0] (Qc_of_Z (-1)) eq_refl)
    as (self & h' & Rm & Hinit & Hlam & _).
  by exists self, h'.
Defined.

(** ** The bound, the variables and the solving methods *)

(** C10, as the spec states it, fails: for the measured vector [[1]], of
    total 1, the bound is 0, and no encoded variable is forced to 0:
    [LogEncInteger] refuses the range [(0, 0)], so that no variable is
    created and both solving methods raise [AssertionError]. *)
Lemma C10_bound_zero_creates_no_variable :
  1 ≤ qsum [Qc_of_Z 1] ∧ qsum [Qc_of_Z 1] < 2 ∧
  encoding_bound [Qc_of_Z 1] = Ok 0%Z ∧
  LogEncInteger (xlabel 0) (0%Z, 0%Z) = Raise AssertionError ∧
  _define_variables [Qc_of_Z 1] = Raise AssertionError ∧
  ¬ is_Ok (_define_variables [Qc_of_Z 1]) ∧
  construct_and_anneal (NdArray 1 [[Qc_of_Z 1]]) [Qc_of_Z 1] 0
    (fixed_sa_sampler [all_zero]) 100 None = Raise AssertionError ∧
  construct_and_hybrid (NdArray 1 [[Qc_of_Z 1]]) [Qc_of_Z 1] 0
    (fixed_hybrid_sampler [all_zero]) = Raise AssertionError.
Proof.
  split; [by vm_compute|]. split; [by vm_compute|]. split; [by vm_compute|].
  split; [by vm_compute|]. split; [by vm_compute|].
  split; [intros [x Hx]; by vm_compute in Hx|].
  split; by vm_compute.
Qed.

(** C10, amended.  For a measured vector of non-negative total, the bound
    of [_define_variables] is [int(2 ** floor(log2(sum d))) - 1]: it is
    defined, it is a function of the total alone, for a positive total it
    is [2^e - 1] or [-1] where [e] is the integer with
    [2^e ≤ sum d < 2^(e+1)], it is at least 1 exactly when the total is at
    least 2, it is 0 for a total in [[1, 2)] and [-1] for a total below 1.
    For a total of at least 2 [_define_variables] creates one variable
    for each entry of the measured vector, each over the range
    [(0, bound)].  For a total below 2 the range [[0, bound]] holds no
    positive integer and no variable is forced to 0: [LogEncInteger]
    refuses the range, [_define_variables] raises [AssertionError] for a
    non-empty measured vector, and every solve call raises
    ([AssertionError]; [ValueError] for the empty measured vector), so
    that no solve call returns a bin count. *)
Theorem C10_encoding_bound_and_variables (d : list Qc) :
  0 ≤ qsum d →
  ∃ n : Z,
    encoding_bound d = Ok n ∧
    (∀ d' : list Qc, qsum d' = qsum d → encoding_bound d' = Ok n) ∧
    (0 < qsum d → ∃ e : Z,
       pow2 e ≤ qsum d ∧ qsum d < pow2 (e + 1) ∧
       n = ((if decide (0 ≤ e)%Z then 2 ^ e else 0) - 1)%Z) ∧
    ((1 ≤ n)%Z ↔ 2 ≤ qsum d) ∧
    (1 ≤ qsum d → qsum d < 2 → n = 0%Z) ∧
    (qsum d < 1 → n = (-1)%Z) ∧
    (qsum d < 2 → ∀ v : Z, (0 ≤ v ≤ n)%Z → v = 0%Z) ∧
    (2 ≤ qsum d →
       ∃ x : list Integer,
         _define_variables d = Ok x ∧ length x = length d ∧
         ∀ xi : Integer, xi ∈ x → value_range xi = (0%Z, n)) ∧
    (qsum d < 2 → ∀ lbl : string,
       LogEncInteger lbl (0%Z, n) = Raise AssertionError) ∧
    (qsum d < 2 → d ≠ [] → _define_variables d = Raise AssertionError) ∧
    (qsum d < 2 →
       ∀ (self : QUnfoldQUBO) (h : heap) (Rm : ndarray),
         self_d self = d → h !! self_R self = Some Rm →
         (∀ (sampler : sa_sampler) (num_reads : Z) (seed : option Z),
            solve_simulated_annealing self h sampler num_reads seed
            = Raise (match d with [] => ValueError | _ => AssertionError end)) ∧
         (∀ sampler : hybrid_sampler,
            solve_hybrid_sampler self h sampler
            = Raise (match d with [] => ValueError | _ => AssertionError end))).
Proof.
  intros Hnn.
  destruct (encoding_bound_cases d Hnn)
    as (n & Hb & Hdep & Hexp & Hiff & H12 & H1 & Hrange).
  assert (qsum d < 2 → (n ≤ 0)%Z) as Hle.
  { intros H2. destruct (Z_le_gt_dec n 0) as [|Hgt]; [done|].
    assert (2 ≤ qsum d) as H2' by (apply Hiff; lia).
    exfalso. revert H2. by apply Qcle_not_lt. }
  exists n. do 7 (split; [done|]).
  split; [|split; [|split]].
  - intros H2. assert (0 < n)%Z as Hn by (apply Hiff in H2; lia).
    exists (variables n (length d)).
    split; [by apply _define_variables_Ok|].
    split; [apply length_variables|].
    intros xi Hxi. unfold variables in Hxi.
    apply list_elem_of_fmap in Hxi as (i & -> & _). done.
  - intros H2 lbl. unfold LogEncInteger.
    by rewrite decide_False by (apply Hle in H2; lia).
  - intros H2 Hd. by apply (_define_variables_no_range d n Hb (Hle H2)).
  - intros H2 self h Rm Hd HRm. destruct d as [|q d'] eqn:Hdd.
    + split; intros; unfold solve_simulated_annealing, solve_hybrid_sampler;
        rewrite (proj2 (deref_Ok _ _ _) HRm), Hd; cbn [mbind result_bind];
        by rewrite _define_pyqubo_model_empty.
    + apply (solve_raises_with_variables self h Rm AssertionError HRm).
      rewrite Hd. by apply (_define_variables_no_range _ n Hb (Hle H2)).
Qed.

Lemma C10_encoding_bound_and_variables_witness :
  encoding_bound [frac 3 2] = Ok 0%Z ∧
  _define_variables [frac 3 2] = Raise AssertionError ∧
  solve_simulated_annealing (mkQUnfoldQUBO 0%nat [frac 3 2] 0)
    (heap_with (NdArray 1 [[Qc_of_Z 1]])) (fixed_sa_sampler [all_zero]) 100 None
  = Raise AssertionError.
Proof.
  destruct (C10_encoding_bound_and_variables [frac 3 2])
    as (n & Hb & _ & _ & _ & H12 & _ & _ & _ & _ & Hv & Hs);
    [by vm_compute|].
  assert (n = 0%Z) as Hn by (apply H12; by vm_compute).
  rewrite Hn in Hb.
  split; [exact Hb|]. split; [apply Hv; [by vm_compute|discriminate]|].
  destruct (Hs ltac:(by vm_compute) (mkQUnfoldQUBO 0%nat [frac 3 2] 0)
              (heap_with (NdArray 1 [[Qc_of_Z 1]])) (NdArray 1 [[Qc_of_Z 1]])
              eq_refl eq_refl) as (Hsa & _).
  apply Hsa.
Defined.

(** * Further properties of the code *)

(** ** Normalisation: what the stored response looks like *)

Lemma wf_normalized (A : ndarray) : wf_ndarray A → wf_ndarray (normalized A).
Proof.
  unfold wf_ndarray, normalized. simpl. intros Hwf.
  apply Forall_fmap. eapply Forall_impl; [exact Hwf|].
  intros r Hr. simpl. unfold norm_row. case_decide; [done|].
  by rewrite length_map.
Qed.

Lemma qsum_norm_row (r : list Qc) :
  (qsum r = 0 → qsum (norm_row r) = 0) ∧ (qsum r ≠ 0 → qsum (norm_row r) = 1).
Proof.
  split; intros Hs.
  - by rewrite norm_row_zero.
  - rewrite norm_row_nonzero, qsum_map_div by done. by field.
Qed.

Lemma length_norm_row (r : list Qc) : length (norm_row r) = length r.
Proof. unfold norm_row. case_decide; [done|]. by rewrite length_map. Qed.

(** X1.  After [_normalize] every row sums to exactly 1, except the rows
    whose sum was 0, which still sum to 0; the shape is kept and a
    rectangular array stays rectangular. *)
Theorem normalize_rows_sum_to_one (h : heap) (matrix : loc) (A : ndarray) :
  h !! matrix = Some A →
  ∃ (l' : loc) (N : ndarray),
    _normalize matrix h = Ok (l', <[l' := N]> h) ∧
    (wf_ndarray A → wf_ndarray N) ∧
    ∀ (i : nat) (r : list Qc), rows A !! i = Some r →
      ∃ r' : list Qc,
        rows N !! i = Some r' ∧ length r' = length r ∧
        (qsum r = 0 → qsum r' = 0) ∧ (qsum r ≠ 0 → qsum r' = 1).
Proof.
  intros Hm. exists (fresh (dom h)), (normalized A).
  split; [by apply _normalize_spec|]. split; [apply wf_normalized|].
  intros i r Hr. exists (norm_row r).
  split; [simpl; by rewrite list_lookup_fmap, Hr|].
  split; [apply length_norm_row|]. apply qsum_norm_row.
Qed.

Lemma normalize_rows_sum_to_one_witness :
  ∃ (l' : loc) (N : ndarray) (r' : list Qc),
    _normalize 0%nat (heap_with counts22) = Ok (l', <[l' := N]> (heap_with counts22)) ∧
    rows N !! 1%nat = Some r' ∧ qsum r' = 1.
Proof.
  destruct (normalize_rows_sum_to_one (heap_with counts22) 0%nat counts22 eq_refl)
    as (l' & N & Hn & _ & Hrows).
  destruct (Hrows 1%nat [Qc_of_Z 2; Qc_of_Z 6] eq_refl) as (r' & Hr' & _ & _ & H1).
  exists l', N, r'. split; [exact Hn|]. split; [exact Hr'|].
  apply H1. by vm_compute.
Defined.

Lemma allclose_tol_bounds : 0 ≤ allclose_tol ∧ allclose_tol < 1.
Proof. split; by vm_compute. Qed.

Lemma np_allclose_1_true (v : list Qc) :
  np_allclose_1 v = true ↔ Forall (λ s, Qcabs (s - 1) ≤ allclose_tol) v.
Proof.
  unfold np_allclose_1, allclose_tol. induction v as [|s v IH]; simpl.
  - split; [constructor|done].
  - rewrite andb_true_iff, bool_decide_eq_true, IH, Forall_cons. done.
Qed.

Lemma close_to_one_nonzero (s : Qc) : Qcabs (s - 1) ≤ allclose_tol → s ≠ 0.
Proof. intros Hs ->. revert Hs. by vm_compute. Qed.

Lemma one_close_to_one : Qcabs (1 - 1) ≤ allclose_tol.
Proof. by vm_compute. Qed.

(** X2.  After construction the stored response passes [_is_normalized]
    exactly when no row of the caller's matrix sums to zero: one zero-sum
    row keeps the object permanently "not normalized". *)
Theorem init_normalized_iff_no_zero_sum_row (h : heap) (response : loc)
    (A : ndarray) (d : list Qc) (lam : Qc) :
  h !! response = Some A →
  ∃ (self : QUnfoldQUBO) (h' : heap),
    __init__ response d lam h = Ok (self, h') ∧
    (_is_normalized (self_R self) h' = Ok true
     ↔ Forall (λ r, qsum r ≠ 0) (rows A)).
Proof.
  intros Hr. rewrite (__init___spec h response A d lam Hr).
  destruct (np_allclose_1 (np_sum_axis1 A)) eqn:Hn.
  - eexists _, _. split; [done|]. simpl. unfold _is_normalized.
    rewrite (proj2 (deref_Ok h response A) Hr). simpl. rewrite Hn.
    split; [intros _|done].
    apply np_allclose_1_true in Hn. unfold np_sum_axis1 in Hn.
    rewrite Forall_fmap in Hn. eapply Forall_impl; [exact Hn|].
    intros r. simpl. apply close_to_one_nonzero.
  - eexists _, _. split; [done|]. simpl. unfold _is_normalized, deref.
    rewrite lookup_insert_eq. simpl.
    assert (∀ b b' : bool, (b = true ↔ b' = true) → Ok b = Ok true ↔ b' = true)
      as Hok by (intros b b' Hb; rewrite <-Hb; split; congruence).
    etrans; [apply (Hok _ (np_allclose_1 (map qsum (map norm_row (rows A))))); done|].
    rewrite np_allclose_1_true, !Forall_fmap.
    apply Forall_iff. intros r. simpl.
    destruct (qsum_norm_row r) as [H0 H1]. split.
    + intros Hc Hz. rewrite (H0 Hz) in Hc. by apply close_to_one_nonzero in Hc.
    + intros Hnz. rewrite (H1 Hnz). apply one_close_to_one.
Qed.

Lemma init_normalized_iff_no_zero_sum_row_witness :
  ∃ (self : QUnfoldQUBO) (h' : heap),
    __init__ 0%nat [Qc_of_Z 4] 0 (heap_with counts_with_zero_row) = Ok (self, h') ∧
    _is_normalized (self_R self) h' ≠ Ok true.
Proof.
  destruct (init_normalized_iff_no_zero_sum_row (heap_with counts_with_zero_row)
              0%nat counts_with_zero_row [Qc_of_Z 4] 0 eq_refl)
    as (self & h' & Hi & Hiff).
  exists self, h'. split; [exact Hi|]. intros Hn. apply Hiff in Hn.
  apply Forall_cons in Hn as [Hz _]. by apply Hz.
Defined.

Lemma qsum_nonneg (r : list Qc) : Forall (λ e, 0 ≤ e) r → 0 ≤ qsum r.
Proof.
  induction 1 as [|x r Hx _ IH]; [done|].
  rewrite qsum_cons. by apply Qcplus_nonneg_nonneg.
Qed.

Lemma qsum_elem_le (r : list Qc) (e : Qc) :
  Forall (λ e, 0 ≤ e) r → e ∈ r → e ≤ qsum r.
Proof.
  induction 1 as [|x r Hx Hr IH]; intros He.
  - by apply elem_of_nil in He.
  - rewrite qsum_cons. apply elem_of_cons in He as [->|He].
    + rewrite <-(Qcplus_0_r x) at 1. apply Qcplus_le_mono_l. by apply qsum_nonneg.
    + rewrite <-(Qcplus_0_l e). apply Qcplus_le_compat; [done|by apply IH].
Qed.

Lemma qsum_zero_all_zero (r : list Qc) :
  Forall (λ e, 0 ≤ e) r → qsum r = 0 → Forall (λ e, e = 0) r.
Proof.
  intros Hnn Hs. apply Forall_forall. intros e He.
  apply Qcle_antisym; [|by eapply (proj1 (Forall_forall _ _) Hnn)].
  rewrite <-Hs. by apply qsum_elem_le.
Qed.

Lemma Qcdiv_unit_interval (e s : Qc) : 0 ≤ e → e ≤ s → 0 < s → 0 ≤ e / s ∧ e / s ≤ 1.
Proof.
  intros He Hes Hs.
  assert (s ≠ 0) as Hne by (intros ->; by apply Qclt_not_eq in Hs).
  split.
  - apply Qcmult_nonneg_nonneg; [done|]. by apply Qclt_le_weak, Qcinv_pos.
  - apply (Qcmult_le_mono_pos_r _ _ s Hs).
    replace (e / s * s) with e by (by field). by rewrite Qcmult_1_l.
Qed.

(** X3.  For a response without negative entries, every entry of the
    normalised array lies between 0 and 1. *)
Theorem normalize_entries_are_probabilities (h : heap) (matrix : loc) (A : ndarray) :
  h !! matrix = Some A →
  Forall (Forall (λ e, 0 ≤ e)) (rows A) →
  ∃ (l' : loc) (N : ndarray),
    _normalize matrix h = Ok (l', <[l' := N]> h) ∧
    Forall (Forall (λ e, 0 ≤ e ∧ e ≤ 1)) (rows N).
Proof.
  intros Hm Hnn. exists (fresh (dom h)), (normalized A).
  split; [by apply _normalize_spec|]. simpl.
  apply Forall_fmap. eapply Forall_impl; [exact Hnn|].
  intros r Hr. simpl. destruct (decide (qsum r = 0)) as [Hz|Hnz].
  - rewrite norm_row_zero by done.
    eapply Forall_impl; [apply (qsum_zero_all_zero r Hr Hz)|].
    intros e ->. by vm_compute.
  - rewrite norm_row_nonzero by done. apply Forall_fmap, Forall_forall.
    intros e He. simpl.
    assert (0 < qsum r) as Hpos.
    { destruct (Qclt_le_dec 0 (qsum r)) as [|Hle]; [done|].
      destruct Hnz. apply Qcle_antisym; [done|by apply qsum_nonneg]. }
    apply Qcdiv_unit_interval; [|by apply qsum_elem_le|done].
    by eapply (proj1 (Forall_forall _ _) Hr).
Qed.

Lemma normalize_entries_are_probabilities_witness :
  ∃ (l' : loc) (N : ndarray),
    _normalize 0%nat (heap_with counts_with_zero_row)
    = Ok (l', <[l' := N]> (heap_with counts_with_zero_row)) ∧
    Forall (Forall (λ e, 0 ≤ e ∧ e ≤ 1)) (rows N).
Proof.
  apply (normalize_entries_are_probabilities (heap_with counts_with_zero_row)
           0%nat counts_with_zero_row eq_refl).
  repeat constructor; by vm_compute.
Defined.

Lemma qsum_map_mult (c : Qc) (r : list Qc) : qsum (map (Qcmult c) r) = c * qsum r.
Proof.
  induction r as [|x r IH]; simpl.
  - rewrite qsum_nil. ring.
  - rewrite !qsum_cons, IH. ring.
Qed.

Lemma norm_row_scale (c : Qc) (r : list Qc) :
  c ≠ 0 → Forall (λ e, 0 ≤ e) r → norm_row (map (Qcmult c) r) = norm_row r.
Proof.
  intros Hc Hnn. destruct (decide (qsum r = 0)) as [Hz|Hnz].
  - rewrite (norm_row_zero r Hz).
    rewrite norm_row_zero by (rewrite qsum_map_mult, Hz; ring).
    pose proof (qsum_zero_all_zero r Hnn Hz) as Hall. clear Hz Hnn.
    induction Hall as [|x r -> _ IH]; simpl; [done|].
    rewrite IH. f_equal. ring.
  - rewrite (norm_row_nonzero r Hnz).
    assert (c * qsum r ≠ 0) as Hcs.
    { intros H0. apply Qcmult_integral in H0 as [?|?]; done. }
    rewrite norm_row_nonzero by (by rewrite qsum_map_mult).
    rewrite qsum_map_mult, map_map. apply map_ext. intros e. by field.
Qed.

(** X4.  Normalisation does not see a common factor: a table of
    non-negative counts and the same table multiplied by a nonzero scalar
    are normalised to the same array. *)
Theorem normalize_scale_invariant (h1 h2 : heap) (l1 l2 : loc) (A : ndarray) (c : Qc) :
  h1 !! l1 = Some A →
  h2 !! l2 = Some (np_scale c A) →
  c ≠ 0 →
  Forall (Forall (λ e, 0 ≤ e)) (rows A) →
  ∃ (N : ndarray) (l1' l2' : loc),
    _normalize l1 h1 = Ok (l1', <[l1' := N]> h1) ∧
    _normalize l2 h2 = Ok (l2', <[l2' := N]> h2).
Proof.
  intros H1 H2 Hc Hnn.
  exists (normalized A), (fresh (dom h1)), (fresh (dom h2)).
  split; [by apply _normalize_spec|].
  rewrite (_normalize_spec h2 l2 _ H2). do 3 f_equal.
  unfold normalized, np_scale. simpl. f_equal.
  rewrite <-list_fmap_compose. apply Forall_fmap_ext.
  eapply Forall_impl; [exact Hnn|]. intros r Hr. simpl.
  by apply norm_row_scale.
Qed.

Lemma normalize_scale_invariant_witness :
  ∃ (N : ndarray) (l1' l2' : loc),
    _normalize 0%nat (heap_with counts22)
    = Ok (l1', <[l1' := N]> (heap_with counts22)) ∧
    _normalize 0%nat (heap_with counts22_doubled)
    = Ok (l2', <[l2' := N]> (heap_with counts22_doubled)).
Proof.
  apply (normalize_scale_invariant (heap_with counts22) (heap_with counts22_doubled)
           0%nat 0%nat counts22 (Qc_of_Z 2) eq_refl).
  - unfold heap_with. rewrite lookup_singleton_eq. f_equal.
    unfold counts22_doubled, counts22, np_scale. simpl.
    repeat f_equal; apply Qc_is_canon; reflexivity.
  - by vm_compute.
  - repeat constructor; by vm_compute.
Defined.

(** ** Aliasing of the stored response *)

(** X5.  [self.R] is the caller's own array when that array was already
    normalised, and a private copy otherwise: a later change of the
    caller's array changes the model the solver builds in the first case
    and has no effect in the second. *)
Theorem solve_aliases_normalised_input (h h' : heap) (response : loc)
    (A A' : ndarray) (d : list Qc) (lam : Qc) (self : QUnfoldQUBO)
    (sampler : sa_sampler) (num_reads : Z) (seed : option Z) :
  h !! response = Some A →
  __init__ response d lam h = Ok (self, h') →
  (np_allclose_1 (np_sum_axis1 A) = true →
   solve_simulated_annealing self (<[response := A']> h') sampler num_reads seed
   = '(labels, model) ← _define_pyqubo_model A' d lam;
     sampleset ← sampler model num_reads seed;
     decode_best labels model sampleset) ∧
  (np_allclose_1 (np_sum_axis1 A) = false →
   solve_simulated_annealing self (<[response := A']> h') sampler num_reads seed
   = solve_simulated_annealing self h' sampler num_reads seed).
Proof.
  unfold loc in *. intros Hr. rewrite (__init___spec h response A d lam Hr).
  destruct (np_allclose_1 (np_sum_axis1 A)); intros [= <- <-];
    split; intros Hc; try discriminate Hc.
  - unfold solve_simulated_annealing, deref. simpl.
    by rewrite lookup_insert_eq.
  - assert (fresh (dom h) ≠ response) as Hne.
    { intros Heq. pose proof (is_fresh (dom h)) as Hf. rewrite Heq in Hf.
      apply Hf, elem_of_dom. by eexists. }
    unfold solve_simulated_annealing, deref. simpl.
    rewrite lookup_insert_ne by done. done.
Qed.

Lemma solve_aliases_normalised_input_witness :
  ∃ (self : QUnfoldQUBO) (h' : heap),
    __init__ 0%nat [Qc_of_Z 10; Qc_of_Z 0; Qc_of_Z 0] 0 (heap_with counts22)
    = Ok (self, h') ∧
    solve_simulated_annealing self (<[0%nat := identity3]> h')
      (fixed_sa_sampler [all_zero]) 100 None
    = solve_simulated_annealing self h' (fixed_sa_sampler [all_zero]) 100 None.
Proof.
  destruct (__init__ 0%nat [Qc_of_Z 10; Qc_of_Z 0; Qc_of_Z 0] 0 (heap_with counts22))
    as [[self h']|e] eqn:Hi; [|by vm_compute in Hi].
  exists self, h'. split; [done|].
  apply (solve_aliases_normalised_input (heap_with counts22) h' 0%nat counts22
           identity3 _ _ self _ _ _ eq_refl Hi).
  by vm_compute.
Defined.

(** ** The second-difference matrix *)

Lemma wf_np_build (r c : nat) (f : nat → nat → Qc) : wf_ndarray (np_build r c f).
Proof.
  unfold wf_ndarray, np_build. simpl. apply Forall_fmap, Forall_forall.
  intros i _. simpl. by rewrite length_map, length_seq.
Qed.

Lemma np_add_wf (A B C : ndarray) : np_add A B = Ok C → wf_ndarray C.
Proof.
  unfold np_add. destruct (bcast_dim _ _); [|done].
  destruct (bcast_dim _ _); [|done]. intros [= <-]. apply wf_np_build.
Qed.

Lemma laplacian_entry_sym (i j : nat) : laplacian_entry i j = laplacian_entry j i.
Proof.
  unfold laplacian_entry.
  destruct (decide (i = j)) as [->|Hij]; [by rewrite !decide_True|].
  rewrite (decide_False (P := j = i)) by congruence.
  destruct (decide (j = S i ∨ i = S j)) as [Hn|Hn].
  - rewrite decide_True by (destruct Hn; [by right|by left]). done.
  - rewrite decide_False; [done|]. intros [?|?]; apply Hn; [by right|by left].
Qed.

(** X6.  [_get_laplacian(0)] raises ([np.ones(-1)]); for every positive
    dimension the result is a rectangular square array of that side, and
    it is symmetric. *)
Theorem get_laplacian_square_symmetric :
  _get_laplacian 0 = Raise ValueError ∧
  ∀ n : nat, ∃ G : ndarray,
    _get_laplacian (S n) = Ok G ∧ wf_ndarray G ∧
    nrows G = S n ∧ ncols G = S n ∧
    ∀ i j : nat, (i < S n)%nat → (j < S n)%nat → entry G i j = entry G j i.
Proof.
  split; [by vm_compute|]. intros n.
  destruct (_get_laplacian_spec (S n)) as (G & HG & Hr & Hc & He); [lia|].
  exists G. split; [done|]. split.
  { unfold _get_laplacian in HG.
    apply bind_Ok in HG as (d1 & _ & (ones & _ & (D & _ & HG)%bind_Ok)%bind_Ok).
    by apply np_add_wf in HG. }
  do 2 (split; [done|]). intros i j Hi Hj.
  rewrite !He by done. apply laplacian_entry_sym.
Qed.

(** ** Sums over index ranges *)

Lemma sum_range_O (f : nat → Qc) : sum_range 0 f = 0.
Proof. done. Qed.

Lemma sum_range_zero (n : nat) : sum_range n (λ _, 0) = 0.
Proof.
  induction n as [|n IH]; [done|]. rewrite sum_range_S, IH. ring.
Qed.

Lemma sum_range_plus (n : nat) (f g : nat → Qc) :
  sum_range n (λ k, f k + g k) = sum_range n f + sum_range n g.
Proof.
  induction n as [|n IH]; [rewrite !sum_range_O; ring|].
  rewrite !sum_range_S, IH. ring.
Qed.

Lemma sum_range_mult_l (n : nat) (c : Qc) (f : nat → Qc) :
  sum_range n (λ k, c * f k) = c * sum_range n f.
Proof.
  induction n as [|n IH]; [rewrite !sum_range_O; ring|].
  rewrite !sum_range_S, IH. ring.
Qed.

Lemma sum_range_mult_r (n : nat) (c : Qc) (f : nat → Qc) :
  sum_range n (λ k, f k * c) = sum_range n f * c.
Proof.
  induction n as [|n IH]; [rewrite !sum_range_O; ring|].
  rewrite !sum_range_S, IH. ring.
Qed.

Lemma sum_range_swap (n m : nat) (f : nat → nat → Qc) :
  sum_range n (λ i, sum_range m (λ j, f i j))
  = sum_range m (λ j, sum_range n (λ i, f i j)).
Proof.
  induction n as [|n IH].
  - rewrite sum_range_O. symmetry. apply sum_range_zero.
  - rewrite sum_range_S, IH, <-sum_range_plus.
    apply sum_range_ext. intros j _. by rewrite sum_range_S.
Qed.

Lemma sum_range_nonneg (n : nat) (f : nat → Qc) :
  (∀ k, (k < n)%nat → 0 ≤ f k) → 0 ≤ sum_range n f.
Proof.
  induction n as [|n IH]; intros Hf; [done|].
  rewrite sum_range_S. apply Qcplus_nonneg_nonneg.
  - apply IH. intros k Hk. apply Hf. lia.
  - apply Hf. lia.
Qed.

Lemma Qc_square_nonneg (q : Qc) : 0 ≤ q * q.
Proof.
  destruct (Qclt_le_dec q 0) as [Hneg|Hpos].
  - replace (q * q) with ((- q) * (- q)) by ring.
    assert (0 ≤ - q) as Hq.
    { apply Qclt_le_weak in Hneg. apply Qcopp_le_compat in Hneg.
      by replace (- 0) with 0 in Hneg by ring. }
    by apply Qcmult_nonneg_nonneg.
  - by apply Qcmult_nonneg_nonneg.
Qed.

(** ** The Hamiltonian as a least-squares objective *)

(** [xᵗ (MᵗM) x = ‖M x‖²] *)
Lemma gram_quadratic (M : nat → nat → Qc) (m n : nat) (x : nat → Qc) :
  sum_range n (λ i, sum_range n (λ j,
    sum_range m (λ k, M k i * M k j) * x i * x j))
  = sum_range m (λ k, apply_row M n x k * apply_row M n x k).
Proof.
  transitivity (sum_range n (λ i, sum_range m (λ k,
                  sum_range n (λ j, (M k i * x i) * (M k j * x j))))).
  { apply sum_range_ext. intros i _.
    rewrite <-sum_range_swap. apply sum_range_ext. intros j _.
    rewrite <-!sum_range_mult_r. apply sum_range_ext. intros k _. ring. }
  rewrite sum_range_swap. apply sum_range_ext. intros k _.
  unfold apply_row. rewrite <-sum_range_mult_r.
  apply sum_range_ext. intros i _. by rewrite <-sum_range_mult_l.
Qed.

(** [aᵗx = -2 (R x)·d] *)
Lemma linear_term (Rm : ndarray) (d : list Qc) (n : nat) (x : nat → Qc) :
  sum_range n (λ j, linear_coeff Rm d j * x j)
  = Qc_of_Z (-2) * sum_range (nrows Rm) (λ k,
      apply_row (entry Rm) n x k * default 0 (d !! k)).
Proof.
  unfold linear_coeff, apply_row.
  transitivity (sum_range n (λ j, sum_range (nrows Rm) (λ k,
                  Qc_of_Z (-2) * (entry Rm k j * x j * default 0 (d !! k))))).
  { apply sum_range_ext. intros j _.
    rewrite <-sum_range_mult_l, <-sum_range_mult_r.
    apply sum_range_ext. intros k _. ring. }
  rewrite sum_range_swap, <-sum_range_mult_l.
  apply sum_range_ext. intros k _.
  rewrite sum_range_mult_l, <-sum_range_mult_r. done.
Qed.

Lemma quadratic_form_least_squares (Rm : ndarray) (d : list Qc) (lam : Qc)
    (n : nat) (x : nat → Qc) :
  quadratic_form n (linear_coeff Rm d) (quadratic_coeff Rm lam n) x
  = objective Rm d lam n x - norm2 (nrows Rm) d.
Proof.
  unfold quadratic_form, objective, residual2, norm2, curvature2.
  rewrite linear_term.
  transitivity
    (Qc_of_Z (-2) * sum_range (nrows Rm) (λ k,
        apply_row (entry Rm) n x k * default 0 (d !! k))
     + (sum_range n (λ i, sum_range n (λ j, RtR_entry Rm i j * x i * x j))
        + lam * sum_range n (λ i, sum_range n (λ j, GtG_entry n i j * x i * x j)))).
  { f_equal. rewrite <-sum_range_mult_l, <-sum_range_plus.
    apply sum_range_ext. intros i _.
    rewrite <-sum_range_mult_l, <-sum_range_plus.
    apply sum_range_ext. intros j _. unfold quadratic_coeff. ring. }
  unfold RtR_entry, GtG_entry. rewrite !gram_quadratic.
  transitivity
    (sum_range (nrows Rm) (λ k,
       apply_row (entry Rm) n x k * apply_row (entry Rm) n x k
       + (Qc_of_Z (-2) * (apply_row (entry Rm) n x k * default 0 (d !! k))
          + default 0 (d !! k) * default 0 (d !! k)))
     + lam * sum_range n (λ k,
         apply_row laplacian_entry n x k * apply_row laplacian_entry n x k)
     - sum_range (nrows Rm) (λ k, default 0 (d !! k) * default 0 (d !! k))).
  { rewrite !sum_range_plus, sum_range_mult_l. ring. }
  do 2 f_equal. apply sum_range_ext. intros k _.
  replace (Qc_of_Z (-2)) with (- (1 + 1)) by (apply Qc_is_canon; reflexivity).
  ring.
Qed.

Lemma residual2_nonneg (Rm : ndarray) (d : list Qc) (n : nat) (x : nat → Qc) :
  0 ≤ residual2 Rm d n x.
Proof. apply sum_range_nonneg. intros k _. apply Qc_square_nonneg. Qed.

Lemma curvature2_nonneg (n : nat) (x : nat → Qc) : 0 ≤ curvature2 n x.
Proof. apply sum_range_nonneg. intros k _. apply Qc_square_nonneg. Qed.

Lemma objective_nonneg (Rm : ndarray) (d : list Qc) (lam : Qc) (n : nat)
    (x : nat → Qc) :
  0 ≤ lam → 0 ≤ objective Rm d lam n x.
Proof.
  intros Hlam. apply Qcplus_nonneg_nonneg; [apply residual2_nonneg|].
  apply Qcmult_nonneg_nonneg; [done|apply curvature2_nonneg].
Qed.

Lemma objective_ext (Rm : ndarray) (d : list Qc) (lam : Qc) (n : nat)
    (x y : nat → Qc) :
  (∀ k, (k < n)%nat → x k = y k) →
  objective Rm d lam n x = objective Rm d lam n y.
Proof.
  intros Hxy.
  assert (∀ M k, apply_row M n x k = apply_row M n y k) as Hrow.
  { intros M k. apply sum_range_ext. intros j Hj. by rewrite Hxy. }
  unfold objective, residual2, curvature2. f_equal.
  - apply sum_range_ext. intros k _. by rewrite Hrow.
  - f_equal. apply sum_range_ext. intros k _. by rewrite Hrow.
Qed.

(** X7.  Up to the constant [‖d‖²] the Hamiltonian is the regularised
    least-squares objective: under every sample its value is
    [‖R x - d‖² + lam·‖G x‖² - ‖d‖²], [x] being the values the sample
    gives to the variables. *)
Theorem hamiltonian_is_least_squares (Rm : ndarray) (d : list Qc) (lam : Qc)
    (x : list Integer) :
  nrows Rm = length d → length x = ncols Rm → (0 < length x)%nat →
  ∃ H : Expr,
    _define_hamiltonian Rm d lam x = Ok H ∧
    ∀ σ : sample,
      eval σ H
      = residual2 Rm d (length x) (var_value σ x)
        + lam * curvature2 (length x) (var_value σ x)
        - norm2 (length d) d.
Proof.
  intros Hd Hx Hn. eexists. split; [by apply _define_hamiltonian_spec|].
  intros σ. rewrite eval_hamiltonian_of, quadratic_form_least_squares.
  by rewrite Hd.
Qed.

Lemma hamiltonian_is_least_squares_witness :
  ∃ H : Expr,
    _define_hamiltonian identity3 [Qc_of_Z 10; Qc_of_Z 0; Qc_of_Z 0] 0
      (variables 7 3) = Ok H ∧
    eval all_zero H
    = residual2 identity3 [Qc_of_Z 10; Qc_of_Z 0; Qc_of_Z 0] 3
        (var_value all_zero (variables 7 3))
      + 0 * curvature2 3 (var_value all_zero (variables 7 3))
      - norm2 3 [Qc_of_Z 10; Qc_of_Z 0; Qc_of_Z 0].
Proof.
  destruct (hamiltonian_is_least_squares identity3
              [Qc_of_Z 10; Qc_of_Z 0; Qc_of_Z 0] 0 (variables 7 3))
    as (H & HH & Hev); [reflexivity|reflexivity|simpl; lia|].
  exists H. split; [exact HH|]. apply Hev.
Defined.

(** X8.  With a non-negative [lam] no sample has an energy below
    [-‖d‖²]. *)
Theorem energy_lower_bound (Rm : ndarray) (d : list Qc) (lam : Qc)
    (x : list Integer) (H : Expr) (σ : sample) :
  nrows Rm = length d → length x = ncols Rm →
  _define_hamiltonian Rm d lam x = Ok H →
  0 ≤ lam →
  - norm2 (length d) d ≤ eval σ H.
Proof.
  intros Hd Hx HH Hlam.
  destruct (_define_hamiltonian_inv _ _ _ _ _ HH) as [Hn _].
  rewrite (_define_hamiltonian_spec Rm d lam x Hd Hx Hn) in HH.
  injection HH as <-.
  rewrite eval_hamiltonian_of, quadratic_form_least_squares, Hd.
  rewrite <-(Qcplus_0_l (- norm2 (length d) d)).
  apply Qcplus_le_compat; [by apply objective_nonneg|apply Qcle_refl].
Qed.

Lemma energy_lower_bound_witness :
  ∃ H : Expr,
    _define_hamiltonian identity3 [Qc_of_Z 10; Qc_of_Z 0; Qc_of_Z 0] 0
      (variables 7 3) = Ok H ∧
    - norm2 3 [Qc_of_Z 10; Qc_of_Z 0; Qc_of_Z 0] ≤ eval x0_all_ones H.
Proof.
  destruct (_define_hamiltonian identity3 [Qc_of_Z 10; Qc_of_Z 0; Qc_of_Z 0] 0
              (variables 7 3)) as [H|e] eqn:HH; [|by vm_compute in HH].
  exists H. split; [done|].
  apply (energy_lower_bound identity3 [Qc_of_Z 10; Qc_of_Z 0; Qc_of_Z 0] 0
           (variables 7 3) H x0_all_ones); [reflexivity|reflexivity|exact HH|].
  by vm_compute.
Defined.

(** ** What the solving methods return *)

Lemma encoding_bound_lt_total (d : list Qc) (n : Z) :
  encoding_bound d = Ok n → (0 ≤ n)%Z → Qc_of_Z n < qsum d.
Proof.
  intros Hb Hn.
  destruct (Qclt_le_dec 0 (qsum d)) as [Hs|Hs].
  - rewrite encoding_bound_pos in Hb by done. injection Hb as <-.
    destruct (floor_log2_spec (qsum d) Hs) as [Hlo _].
    case_decide as Hf; [|lia].
    eapply Qclt_le_trans; [|exact Hlo].
    unfold pow2. rewrite decide_True by done.
    apply (proj1 (Z2Qc_inj_lt _ _)). lia.
  - destruct (decide (qsum d = 0)) as [Hz|Hnz].
    + rewrite encoding_bound_zero in Hb by done. injection Hb as <-. lia.
    + rewrite encoding_bound_negative in Hb; [done|].
      destruct (Qclt_le_dec (qsum d) 0) as [|Hle]; [done|].
      destruct Hnz. by apply Qcle_antisym.
Qed.

Lemma encoding_bound_ge_2 (d : list Qc) :
  2 ≤ qsum d → ∃ n : Z, encoding_bound d = Ok n ∧ (1 ≤ n)%Z.
Proof.
  intros H2.
  assert (0 < qsum d) as Hs by (eapply Qclt_le_trans; [|exact H2]; by vm_compute).
  rewrite (encoding_bound_pos d Hs). eexists. split; [done|].
  destruct (floor_log2_spec (qsum d) Hs) as [_ Hup].
  rewrite <-pow2_1 in H2.
  assert (1 < floor_log2 (qsum d) + 1)%Z
    by (apply pow2_lt_inv; by eapply Qcle_lt_trans).
  rewrite decide_True by lia.
  assert (2 ^ 1 ≤ 2 ^ floor_log2 (qsum d))%Z by (apply Z.pow_le_mono_r; lia).
  lia.
Qed.

(** The model of a square problem. *)
Lemma _define_pyqubo_model_square (Rm : ndarray) (d : list Qc) (lam : Qc) (n : Z) :
  encoding_bound d = Ok n → (0 < n)%Z →
  nrows Rm = length d → ncols Rm = length d → (0 < length d)%nat →
  _define_pyqubo_model Rm d lam
  = Ok (map xlabel (seq 0 (length d)),
        hamiltonian_of (length d) (linear_coeff Rm d)
          (quadratic_coeff Rm lam (length d)) (variables n (length d))).
Proof.
  intros Hb Hn Hr Hc Hd. unfold _define_pyqubo_model.
  rewrite (_define_variables_Ok d n Hb Hn). cbn [mbind result_bind].
  rewrite _define_hamiltonian_spec
    by (rewrite ?length_variables; done || congruence).
  cbn [mbind result_bind]. rewrite labels_of_variables.
  cbn [mbind result_bind]. by rewrite length_variables.
Qed.

Lemma var_value_variables (σ : sample) (n : Z) (m k : nat) :
  (k < m)%nat → var_value σ (variables n m) k = decoded_value σ n k.
Proof.
  intros Hk. unfold var_value. rewrite var_expr_variables by done. simpl.
  rewrite eval_log_enc_express. unfold decoded_value.
  by rewrite length_log_weights.
Qed.

Lemma decode_best_Ok_nonempty (labels : list string) (model : Expr)
    (ss : list sample) (v : list Qc) :
  decode_best labels model ss = Ok v → ss ≠ [].
Proof. intros Hv ->. by vm_compute in Hv. Qed.

(** X9.  For a square problem the vector the decoding step returns is the
    decoded sample with the least regularised least-squares objective
    [‖R x - d‖² + lam·‖G x‖²] among the samples of the set. *)
Theorem decode_returns_least_objective (Rm : ndarray) (d : list Qc) (lam : Qc)
    (labels : list string) (model : Expr) (ss : list sample) :
  nrows Rm = length d → ncols Rm = length d →
  _define_pyqubo_model Rm d lam = Ok (labels, model) →
  ss ≠ [] →
  ∃ (σ : sample) (n : Z),
    σ ∈ ss ∧ encoding_bound d = Ok n ∧
    decode_best labels model ss = Ok (map (decoded_value σ n) (seq 0 (length d))) ∧
    ∀ σ' : sample, σ' ∈ ss →
      objective Rm d lam (length d) (decoded_value σ n)
      ≤ objective Rm d lam (length d) (decoded_value σ' n).
Proof.
  intros Hr Hc Hm Hss.
  destruct (_define_pyqubo_model_inv _ _ _ _ _ Hm)
    as (n & a & B & Hb & Hn & Hd & -> & _).
  rewrite (_define_pyqubo_model_square Rm d lam n Hb Hn Hr Hc Hd) in Hm.
  injection Hm as <-.
  destruct (decode_best_spec n (length d) (linear_coeff Rm d)
              (quadratic_coeff Rm lam (length d)) ss Hss)
    as (i & σ & Hi & Hmin & _ & Hdec).
  exists σ, n. split; [by eapply list_elem_of_lookup_2|].
  split; [done|]. split; [done|].
  intros σ' [j Hj]%list_elem_of_lookup_1.
  pose proof (Hmin j σ' Hj) as Hle.
  rewrite !eval_hamiltonian_of, !quadratic_form_least_squares in Hle.
  apply Qcplus_le_mono_r in Hle.
  rewrite (objective_ext _ _ _ _ (decoded_value σ n) (var_value σ (variables n (length d))))
    by (intros k Hk; by rewrite var_value_variables).
  rewrite (objective_ext _ _ _ _ (decoded_value σ' n) (var_value σ' (variables n (length d))))
    by (intros k Hk; by rewrite var_value_variables).
  done.
Qed.

Lemma decode_returns_least_objective_witness :
  ∃ (labels : list string) (model : Expr) (σ : sample),
    _define_pyqubo_model identity3 [Qc_of_Z 10; Qc_of_Z 0; Qc_of_Z 0] 0
    = Ok (labels, model) ∧
    σ ∈ [all_zero; x0_all_ones] ∧
    objective identity3 [Qc_of_Z 10; Qc_of_Z 0; Qc_of_Z 0] 0 3 (decoded_value σ 7)
    ≤ objective identity3 [Qc_of_Z 10; Qc_of_Z 0; Qc_of_Z 0] 0 3
        (decoded_value all_zero 7).
Proof.
  destruct (_define_pyqubo_model identity3 [Qc_of_Z 10; Qc_of_Z 0; Qc_of_Z 0] 0)
    as [[labels model]|e] eqn:Hm; [|by vm_compute in Hm].
  destruct (decode_returns_least_objective identity3
              [Qc_of_Z 10; Qc_of_Z 0; Qc_of_Z 0] 0 labels model
              [all_zero; x0_all_ones] eq_refl eq_refl Hm)
    as (σ & n & Hσ & Hb & _ & Hmin); [done|].
  assert (n = 7%Z) as -> by (vm_compute in Hb; congruence).
  exists labels, model, σ. split; [done|]. split; [done|].
  apply Hmin. left.
Defined.

(** X10.  On a square response with as many rows as the measured vector
    has entries, a measured total of at least 2 and samplers that return a
    non-empty sample set, construction and both solving methods succeed and
    the vectors have one entry per column of the response. *)
Theorem solve_succeeds_on_square_input (h : heap) (response : loc) (A : ndarray)
    (d : list Qc) (lam : Qc) (sa : sa_sampler) (hyb : hybrid_sampler)
    (num_reads : Z) (seed : option Z) :
  h !! response = Some A →
  nrows A = length d → ncols A = length d → (0 < length d)%nat →
  2 ≤ qsum d →
  (∀ model : Expr, ∃ ss, sa model num_reads seed = Ok ss ∧ ss ≠ []) →
  (∀ model : Expr, ∃ ss, hyb model = Ok ss ∧ ss ≠ []) →
  ∃ (self : QUnfoldQUBO) (h' : heap) (v w : list Qc),
    __init__ response d lam h = Ok (self, h') ∧
    solve_simulated_annealing self h' sa num_reads seed = Ok v ∧
    solve_hybrid_sampler self h' hyb = Ok w ∧
    length v = ncols A ∧ length w = ncols A.
Proof.
  intros Hr Hrows Hcols Hd H2 Hsa Hhyb.
  destruct (__init___Ok h response A d lam Hr)
    as (self & h' & Rm & Hinit & Hsd & Hlam & HRm & Hnr & Hnc).
  destruct (encoding_bound_ge_2 d H2) as (n & Hb & Hn).
  assert (_define_pyqubo_model Rm d lam
          = Ok (map xlabel (seq 0 (length d)),
                hamiltonian_of (length d) (linear_coeff Rm d)
                  (quadratic_coeff Rm lam (length d)) (variables n (length d))))
    as Hm by (apply _define_pyqubo_model_square; lia || congruence).
  set (model := hamiltonian_of _ _ _ _) in Hm.
  destruct (Hsa model) as (ss & Hss & Hne).
  destruct (Hhyb model) as (ss' & Hss' & Hne').
  destruct (decode_best_spec n (length d) (linear_coeff Rm d)
              (quadratic_coeff Rm lam (length d)) ss Hne)
    as (i & σ & _ & _ & _ & Hdec).
  destruct (decode_best_spec n (length d) (linear_coeff Rm d)
              (quadratic_coeff Rm lam (length d)) ss' Hne')
    as (i' & σ' & _ & _ & _ & Hdec').
  exists self, h', (map (decoded_value σ n) (seq 0 (length d))),
    (map (decoded_value σ' n) (seq 0 (length d))).
  split; [done|].
  unfold solve_simulated_annealing, solve_hybrid_sampler.
  rewrite (proj2 (deref_Ok _ _ _) HRm), Hsd, Hlam. cbn [mbind result_bind].
  rewrite Hm. cbn [mbind result_bind]. fold model.
  rewrite Hss, Hss'. cbn [mbind result_bind].
  split; [exact Hdec|]. split; [exact Hdec'|].
  rewrite !length_map, !length_seq. by rewrite Hcols.
Qed.

Lemma solve_succeeds_on_square_input_witness :
  ∃ (self : QUnfoldQUBO) (h' : heap) (v : list Qc),
    __init__ 0%nat [Qc_of_Z 10; Qc_of_Z 0; Qc_of_Z 0] (frac 1 20) (heap_with identity3)
    = Ok (self, h') ∧
    solve_simulated_annealing self h' (fixed_sa_sampler [all_zero; x0_all_ones])
      100 None = Ok v ∧
    length v = 3%nat.
Proof.
  destruct (solve_succeeds_on_square_input (heap_with identity3) 0%nat identity3
              [Qc_of_Z 10; Qc_of_Z 0; Qc_of_Z 0] (frac 1 20)
              (fixed_sa_sampler [all_zero; x0_all_ones])
              (fixed_hybrid_sampler [all_zero]) 100 None eq_refl)
    as (self & h' & v & w & Hi & Hv & _ & Hlen & _);
    [reflexivity|reflexivity|simpl; lia|by vm_compute| | |].
  - intros model. by exists [all_zero; x0_all_ones].
  - intros model. by exists [all_zero].
  - by exists self, h', v.
Defined.

Lemma foldlM_Ok_elem {A B} (f : B → A → result B) (b : B) (l : list A) (r : B)
    (a : A) :
  foldlM f b l = Ok r → a ∈ l → ∃ b', is_Ok (f b' a).
Proof.
  revert b. induction l as [|a' l IH]; intros b; simpl.
  - intros _ Ha. by apply elem_of_nil in Ha.
  - destruct (f b a') as [b1|] eqn:Hf; simpl; [|done].
    intros Hr [->|Ha]%elem_of_cons; [exists b; by exists b1|]. by eapply IH.
Qed.

Lemma bcast_dim_Some (a b c : nat) :
  bcast_dim a b = Some c → a = b ∨ a = 1%nat ∨ b = 1%nat.
Proof. unfold bcast_dim. repeat case_decide; naive_solver. Qed.

(** X11.  The model can only be built when the response has as many rows
    as the measured vector has entries and, besides, is square or has a
    single row: every other shape makes [_define_pyqubo_model] raise. *)
Theorem model_needs_square_or_single_row (Rm : ndarray) (d : list Qc) (lam : Qc)
    (labels : list string) (model : Expr) :
  _define_pyqubo_model Rm d lam = Ok (labels, model) →
  nrows Rm = length d ∧
  (ncols Rm = length d ∨ (length d = 1%nat ∧ (1 ≤ ncols Rm)%nat)).
Proof.
  unfold _define_pyqubo_model.
  intros (x & Hx & (H & HH & _)%bind_Ok)%bind_Ok.
  destruct (_define_variables_inv d x Hx) as (n & _ & -> & _).
  destruct (_define_hamiltonian_inv _ _ _ _ _ HH) as [Hm _].
  rewrite length_variables in Hm.
  unfold _define_hamiltonian in HH. rewrite length_variables in HH.
  apply bind_Ok in HH as (Rtd & HRtd & (h1 & Hh1 & (G & HG & (RtR & HRtR &
    (GtG & HGtG & (B & HB & _)%bind_Ok)%bind_Ok)%bind_Ok)%bind_Ok)%bind_Ok).
  unfold np_matvec in HRtd. rewrite ncols_np_T in HRtd.
  case_decide as Hrows; [|done]. injection HRtd as <-.
  split; [done|].
  assert (length d ≤ ncols Rm)%nat as Hle.
  { destruct (foldlM_Ok_elem _ _ _ _ (length d - 1)%nat Hh1) as (b' & r & Hr).
    { apply elem_of_seq. lia. }
    apply bind_Ok in Hr as (ai & Hai & _). apply getitem_Ok in Hai.
    apply lookup_lt_Some in Hai.
    rewrite !length_map, length_seq, nrows_np_T in Hai. lia. }
  destruct (_get_laplacian_spec (length d) Hm) as (G' & HG' & HGr & HGc & _).
  rewrite HG in HG'. injection HG' as <-.
  unfold np_matmul in HRtR, HGtG. rewrite !ncols_np_T in *.
  rewrite decide_True in HRtR by done. rewrite decide_True in HGtG by done.
  injection HRtR as <-. injection HGtG as <-.
  unfold np_add in HB. rewrite nrows_np_scale, !nrows_np_build in HB.
  rewrite !nrows_np_T, HGc in HB.
  destruct (bcast_dim (ncols Rm) (length d)) as [c|] eqn:Hbc; [|done].
  apply bcast_dim_Some in Hbc. lia.
Qed.

Lemma model_needs_square_or_single_row_witness :
  nrows wide_response = length [Qc_of_Z 4] ∧
  (ncols wide_response = length [Qc_of_Z 4]
   ∨ (length [Qc_of_Z 4] = 1%nat ∧ (1 ≤ ncols wide_response)%nat)).
Proof.
  destruct (_define_pyqubo_model wide_response [Qc_of_Z 4] 0)
    as [[labels model]|e] eqn:Hm; [|by vm_compute in Hm].
  exact (model_needs_square_or_single_row wide_response [Qc_of_Z 4] 0
           labels model Hm).
Defined.

(** X12.  Once the model is built, an empty sample set makes both solving
    methods raise [ValueError] (from [min]), and an exception of the
    sampler is the exception of the call. *)
Theorem solve_propagates_sampler_failure (self : QUnfoldQUBO) (h : heap)
    (Rm : ndarray) (labels : list string) (model : Expr)
    (sa : sa_sampler) (hyb : hybrid_sampler) (num_reads : Z) (seed : option Z) :
  h !! self_R self = Some Rm →
  _define_pyqubo_model Rm (self_d self) (self_lam self) = Ok (labels, model) →
  (sa model num_reads seed = Ok [] →
   solve_simulated_annealing self h sa num_reads seed = Raise ValueError) ∧
  (hyb model = Ok [] → solve_hybrid_sampler self h hyb = Raise ValueError) ∧
  (∀ e, sa model num_reads seed = Raise e →
        solve_simulated_annealing self h sa num_reads seed = Raise e) ∧
  (∀ e, hyb model = Raise e → solve_hybrid_sampler self h hyb = Raise e).
Proof.
  intros HRm Hm. unfold solve_simulated_annealing, solve_hybrid_sampler.
  rewrite (proj2 (deref_Ok _ _ _) HRm). cbn [mbind result_bind].
  rewrite Hm. cbn [mbind result_bind].
  split; [|split; [|split]]; [intros Hs|intros Hs|intros e Hs|intros e Hs];
    by rewrite Hs.
Qed.

Lemma solve_propagates_sampler_failure_witness :
  solve_simulated_annealing (mkQUnfoldQUBO 0%nat [Qc_of_Z 10; Qc_of_Z 0; Qc_of_Z 0] 0)
    (heap_with identity3) (fixed_sa_sampler []) 100 None = Raise ValueError.
Proof.
  destruct (_define_pyqubo_model identity3 [Qc_of_Z 10; Qc_of_Z 0; Qc_of_Z 0] 0)
    as [[labels model]|e] eqn:Hm; [|by vm_compute in Hm].
  destruct (solve_propagates_sampler_failure
              (mkQUnfoldQUBO 0%nat [Qc_of_Z 10; Qc_of_Z 0; Qc_of_Z 0] 0)
              (heap_with identity3) identity3 labels model
              (fixed_sa_sampler []) (fixed_hybrid_sampler []) 100 None eq_refl Hm)
    as (Hempty & _).
  by apply Hempty.
Defined.

(** X13.  With an empty measured vector no variable is created and both
    solving methods raise [ValueError], whatever the response and the
    sampler. *)
Theorem solve_rejects_empty_measured (self : QUnfoldQUBO) (h : heap)
    (Rm : ndarray) (sa : sa_sampler) (hyb : hybrid_sampler)
    (num_reads : Z) (seed : option Z) :
  h !! self_R self = Some Rm →
  self_d self = [] →
  _define_variables (self_d self) = Ok [] ∧
  solve_simulated_annealing self h sa num_reads seed = Raise ValueError ∧
  solve_hybrid_sampler self h hyb = Raise ValueError.
Proof.
  intros HRm Hd. rewrite Hd. split; [by vm_compute|].
  unfold solve_simulated_annealing, solve_hybrid_sampler.
  rewrite (proj2 (deref_Ok _ _ _) HRm), Hd. cbn [mbind result_bind].
  by rewrite _define_pyqubo_model_empty.
Qed.

Lemma solve_rejects_empty_measured_witness :
  solve_simulated_annealing (mkQUnfoldQUBO 0%nat [] 0) (heap_with identity3)
    (fixed_sa_sampler [all_zero]) 100 None = Raise ValueError.
Proof.
  destruct (solve_rejects_empty_measured (mkQUnfoldQUBO 0%nat [] 0)
              (heap_with identity3) identity3 (fixed_sa_sampler [all_zero])
              (fixed_hybrid_sampler [all_zero]) 100 None eq_refl eq_refl)
    as (_ & Hsa & _).
  exact Hsa.
Defined.

(** ** The range of the decoded values *)

Lemma sumZ_pow2 (k : nat) :
  sumZ (map (λ i, 2 ^ Z.of_nat i)%Z (seq 0 k)) = (2 ^ Z.of_nat k - 1)%Z.
Proof.
  induction k as [|k IH]; [done|].
  rewrite seq_S, map_app, sumZ_app, IH. simpl.
  rewrite Nat2Z.inj_succ, Z.pow_succ_r by lia. lia.
Qed.

Lemma log_weights_total (n : Z) : (0 < n)%Z →
  sumZ (log_weights n) = n ∧ Forall (λ w, 0 ≤ w)%Z (log_weights n).
Proof.
  intros Hn. unfold log_weights, num_variables.
  destruct (Z.log2_spec n Hn) as [Hlo _]. pose proof (Z.log2_nonneg n) as Hnn.
  replace (Z.to_nat (Z.log2 n + 1) - 1)%nat with (Z.to_nat (Z.log2 n)) by lia.
  split.
  - rewrite sumZ_app, sumZ_pow2. simpl. lia.
  - apply Forall_app. split.
    + apply Forall_fmap, Forall_forall. intros i _. simpl.
      apply Z.pow_nonneg. lia.
    + constructor; [|constructor]. rewrite Z2Nat.id by done. lia.
Qed.

Lemma weighted_sum_bounds (ws : list Z) (bits : list bool) :
  Forall (λ w, 0 ≤ w)%Z ws →
  (0 ≤ sumZ (zip_with (λ w b, w * Z.b2z b) ws bits) ≤ sumZ ws)%Z.
Proof.
  intros Hws. revert bits.
  induction Hws as [|w ws Hw Hws IH]; intros bits; simpl; [lia|].
  destruct bits as [|b bits]; simpl.
  - specialize (IH []). assert (0 ≤ sumZ ws)%Z by lia. lia.
  - specialize (IH bits). destruct b; simpl; lia.
Qed.

Lemma decoded_value_range (σ : sample) (n : Z) (k : nat) :
  (0 < n)%Z →
  ∃ z : Z, decoded_value σ n k = Qc_of_Z z ∧ (0 ≤ z ≤ n)%Z.
Proof.
  intros Hn. unfold decoded_value. eexists. split; [done|].
  unfold decode. destruct (log_weights_total n Hn) as [Hsum Hnn].
  pose proof (weighted_sum_bounds (log_weights n)
                (bits_of σ (xlabel k) (num_variables n)) Hnn). lia.
Qed.

Lemma decode_best_entries (Rm : ndarray) (d : list Qc) (lam : Qc)
    (labels : list string) (model : Expr) (ss : list sample) (v : list Qc) :
  _define_pyqubo_model Rm d lam = Ok (labels, model) →
  decode_best labels model ss = Ok v →
  ∃ n : Z, encoding_bound d = Ok n ∧ (0 < n)%Z ∧
    Forall (λ e, (∃ z : Z, e = Qc_of_Z z ∧ (0 ≤ z ≤ n)%Z) ∧ e < qsum d) v.
Proof.
  intros Hm Hv.
  destruct (_define_pyqubo_model_inv _ _ _ _ _ Hm)
    as (n & a & B & Hb & Hn & Hd & -> & ->).
  pose proof (decode_best_Ok_nonempty _ _ _ _ Hv) as Hss.
  destruct (decode_best_spec n (length d) a B ss Hss) as (i & σ & _ & _ & _ & Hdec).
  rewrite Hdec in Hv. injection Hv as <-.
  exists n. split; [done|]. split; [done|].
  apply Forall_fmap, Forall_forall. intros k _. simpl.
  destruct (decoded_value_range σ n k Hn) as (z & Hz & Hrange).
  split; [by exists z|]. rewrite Hz.
  eapply Qcle_lt_trans; [|apply (encoding_bound_lt_total d n Hb); lia].
  apply (proj1 (Z2Qc_inj_le _ _)). lia.
Qed.

(** X14.  Every entry of a vector returned by a solving method is an
    integer between 0 and the encoding bound, hence strictly below the
    total of the measured vector: no unfolded bin can hold all the
    measured events. *)
Theorem solve_entries_within_bound (self : QUnfoldQUBO) (h : heap)
    (sa : sa_sampler) (num_reads : Z) (seed : option Z) (v : list Qc) :
  solve_simulated_annealing self h sa num_reads seed = Ok v →
  ∃ n : Z, encoding_bound (self_d self) = Ok n ∧ (0 < n)%Z ∧
    Forall (λ e, (∃ z : Z, e = Qc_of_Z z ∧ (0 ≤ z ≤ n)%Z)
                 ∧ e < qsum (self_d self)) v.
Proof.
  unfold solve_simulated_annealing.
  intros (Rm & _ & ([labels model] & Hm & (ss & _ & Hv)%bind_Ok)%bind_Ok)%bind_Ok.
  by eapply decode_best_entries.
Qed.

Lemma solve_entries_within_bound_witness :
  ∃ (v : list Qc) (n : Z),
    solve_simulated_annealing
      (mkQUnfoldQUBO 0%nat [Qc_of_Z 10; Qc_of_Z 0; Qc_of_Z 0] 0)
      (heap_with identity3) (fixed_sa_sampler [all_zero; x0_all_ones]) 100 None
    = Ok v ∧
    Forall (λ e, (∃ z : Z, e = Qc_of_Z z ∧ (0 ≤ z ≤ n)%Z)
                 ∧ e < qsum [Qc_of_Z 10; Qc_of_Z 0; Qc_of_Z 0]) v.
Proof.
  destruct (solve_simulated_annealing
              (mkQUnfoldQUBO 0%nat [Qc_of_Z 10; Qc_of_Z 0; Qc_of_Z 0] 0)
              (heap_with identity3) (fixed_sa_sampler [all_zero; x0_all_ones])
              100 None) as [v|e] eqn:Hv; [|by vm_compute in Hv].
  destruct (solve_entries_within_bound _ _ _ _ _ _ Hv) as (n & _ & _ & Hall).
  exists v, n. split; [reflexivity|exact Hall].
Defined.

(** X15.  The same bound holds for the hybrid method. *)
Theorem solve_hybrid_entries_within_bound (self : QUnfoldQUBO) (h : heap)
    (hyb : hybrid_sampler) (v : list Qc) :
  solve_hybrid_sampler self h hyb = Ok v →
  ∃ n : Z, encoding_bound (self_d self) = Ok n ∧ (0 < n)%Z ∧
    Forall (λ e, (∃ z : Z, e = Qc_of_Z z ∧ (0 ≤ z ≤ n)%Z)
                 ∧ e < qsum (self_d self)) v.
Proof.
  unfold solve_hybrid_sampler.
  intros (Rm & _ & ([labels model] & Hm & (ss & _ & Hv)%bind_Ok)%bind_Ok)%bind_Ok.
  by eapply decode_best_entries.
Qed.

Lemma solve_hybrid_entries_within_bound_witness :
  ∃ (v : list Qc) (n : Z),
    solve_hybrid_sampler
      (mkQUnfoldQUBO 0%nat [Qc_of_Z 10; Qc_of_Z 0; Qc_of_Z 0] 0)
      (heap_with identity3) (fixed_hybrid_sampler [x0_all_ones]) = Ok v ∧
    Forall (λ e, (∃ z : Z, e = Qc_of_Z z ∧ (0 ≤ z ≤ n)%Z)
                 ∧ e < qsum [Qc_of_Z 10; Qc_of_Z 0; Qc_of_Z 0]) v.
Proof.
  destruct (solve_hybrid_sampler
              (mkQUnfoldQUBO 0%nat [Qc_of_Z 10; Qc_of_Z 0; Qc_of_Z 0] 0)
              (heap_with identity3) (fixed_hybrid_sampler [x0_all_ones]))
    as [v|e] eqn:Hv; [|by vm_compute in Hv].
  destruct (solve_hybrid_entries_within_bound _ _ _ _ Hv) as (n & _ & _ & Hall).
  exists v, n. split; [reflexivity|exact Hall].
Defined.

(** ** The bound as a function of the total *)

Lemma floor_log2_mono (s t : Qc) : 0 < s → s ≤ t → (floor_log2 s ≤ floor_log2 t)%Z.
Proof.
  intros Hs Hst.
  assert (0 < t) as Ht by (by eapply Qclt_le_trans).
  destruct (floor_log2_spec s Hs) as [Hlo _].
  destruct (floor_log2_spec t Ht) as [_ Hup].
  assert (floor_log2 s < floor_log2 t + 1)%Z; [|lia].
  apply pow2_lt_inv. eapply Qcle_lt_trans; [exact Hlo|].
  by eapply Qcle_lt_trans.
Qed.

(** X16.  The encoding bound grows with the measured total: a vector with
    a larger total never gets a smaller bound. *)
Theorem encoding_bound_monotone (d d' : list Qc) (n n' : Z) :
  encoding_bound d = Ok n → encoding_bound d' = Ok n' →
  qsum d ≤ qsum d' → (n ≤ n')%Z.
Proof.
  intros Hb Hb' Hle.
  assert (-1 ≤ n')%Z as Hn'.
  { destruct (encoding_bound_shape d' n' Hb') as [->|[k ->]]; [lia|].
    assert (0 < 2 ^ Z.of_nat k)%Z by (apply Z.pow_pos_nonneg; lia). lia. }
  destruct (Qclt_le_dec 0 (qsum d)) as [Hs|Hs].
  - assert (0 < qsum d') as Hs' by (by eapply Qclt_le_trans).
    rewrite encoding_bound_pos in Hb, Hb' by done.
    injection Hb as <-. injection Hb' as <-.
    pose proof (floor_log2_mono _ _ Hs Hle) as Hf.
    repeat case_decide; try lia.
    assert (2 ^ floor_log2 (qsum d) ≤ 2 ^ floor_log2 (qsum d'))%Z
      by (apply Z.pow_le_mono_r; lia).
    lia.
  - destruct (decide (qsum d = 0)) as [Hz|Hnz].
    + rewrite encoding_bound_zero in Hb by done. injection Hb as <-. done.
    + rewrite encoding_bound_negative in Hb; [done|].
      destruct (Qclt_le_dec (qsum d) 0) as [|Hle0]; [done|].
      destruct Hnz. by apply Qcle_antisym.
Qed.

Lemma encoding_bound_monotone_witness : (3 ≤ 7)%Z.
Proof.
  apply (encoding_bound_monotone [Qc_of_Z 4] [Qc_of_Z 10; Qc_of_Z 0; Qc_of_Z 0] 3 7);
    by vm_compute.
Defined.

(** ** The size of the encoding *)

Lemma binaries_log_enc_express (lbl : string) (lower : Z) (ws : list Z) :
  binaries (log_enc_express lbl lower ws)
  = map (array_name lbl) (seq 0 (length ws)).
Proof.
  unfold log_enc_express.
  assert (∀ (ps : list (nat * Z)) (acc : Expr),
            binaries (foldl (λ acc p, Add acc (Mul (Num (Qc_of_Z p.2))
                                                 (Binary (array_name lbl p.1))))
                        acc ps)
            = binaries acc ++ map (λ p, array_name lbl p.1) ps) as Hgen.
  { induction ps as [|p ps IH]; intros acc; simpl.
    - by rewrite app_nil_r.
    - rewrite IH. simpl. by rewrite <-app_assoc. }
  rewrite Hgen. simpl.
  rewrite <-(map_map fst (array_name lbl)). f_equal.
  apply fst_zip. by rewrite length_seq.
Qed.

Lemma num_variables_of_bound (f : Z) :
  (1 ≤ f)%Z → num_variables (2 ^ f - 1) = Z.to_nat f.
Proof.
  intros Hf. unfold num_variables. f_equal.
  assert (Z.log2 (2 ^ f - 1) = f - 1)%Z as ->; [|lia].
  apply Z.log2_unique; [lia|].
  replace (f - 1 + 1)%Z with f by lia.
  replace f with (Z.succ (f - 1)) at 2 3 by lia.
  rewrite Z.pow_succ_r by lia.
  assert (0 < 2 ^ (f - 1))%Z by (apply Z.pow_pos_nonneg; lia). lia.
Qed.

(** X17.  For a measured total of at least 2, [_define_variables] returns
    one variable per entry of the measured vector, labelled [x0], [x1],
    ... in order, all over the same range [(0, n_max)], and each is
    encoded on exactly [floor(log2(sum d))] binaries named
    [label[0]], [label[1]], ... *)
Theorem define_variables_layout (d : list Qc) :
  2 ≤ qsum d →
  ∃ (x : list Integer) (n : Z),
    _define_variables d = Ok x ∧ encoding_bound d = Ok n ∧
    length x = length d ∧
    ∀ (i : nat) (xi : Integer), x !! i = Some xi →
      label xi = xlabel i ∧ value_range xi = (0%Z, n) ∧
      binaries (express xi)
      = map (array_name (xlabel i)) (seq 0 (Z.to_nat (floor_log2 (qsum d)))).
Proof.
  intros H2.
  assert (0 < qsum d) as Hs by (eapply Qclt_le_trans; [|exact H2]; by vm_compute).
  destruct (floor_log2_spec (qsum d) Hs) as [_ Hup].
  assert (1 ≤ floor_log2 (qsum d))%Z as Hf.
  { rewrite <-pow2_1 in H2.
    assert (1 < floor_log2 (qsum d) + 1)%Z
      by (apply pow2_lt_inv; by eapply Qcle_lt_trans). lia. }
  pose proof (encoding_bound_pos d Hs) as Hb.
  rewrite decide_True in Hb by lia.
  set (n := (2 ^ floor_log2 (qsum d) - 1)%Z) in *.
  assert (0 < n)%Z as Hn.
  { unfold n. assert (2 ^ 1 ≤ 2 ^ floor_log2 (qsum d))%Z
      by (apply Z.pow_le_mono_r; lia). lia. }
  exists (variables n (length d)), n.
  split; [by apply _define_variables_Ok|]. split; [done|].
  split; [apply length_variables|].
  intros i xi Hxi. unfold variables in Hxi.
  apply list_lookup_fmap_Some in Hxi as (i' & -> & Hi').
  apply lookup_seq in Hi' as [-> _]. simpl.
  split; [done|]. split; [done|].
  rewrite binaries_log_enc_express, length_log_weights.
  unfold n. by rewrite num_variables_of_bound.
Qed.

Lemma define_variables_layout_witness :
  ∃ (x : list Integer) (xi : Integer),
    _define_variables [Qc_of_Z 10; Qc_of_Z 0; Qc_of_Z 0] = Ok x ∧
    x !! 1%nat = Some xi ∧
    binaries (express xi) = ["x1[0]"; "x1[1]"; "x1[2]"].
Proof.
  destruct (define_variables_layout [Qc_of_Z 10; Qc_of_Z 0; Qc_of_Z 0])
    as (x & n & Hx & _ & Hlen & Hlay); [by vm_compute|].
  destruct (lookup_lt_is_Some_2 x 1%nat) as [xi Hxi]; [rewrite Hlen; simpl; lia|].
  exists x, xi. split; [exact Hx|]. split; [exact Hxi|].
  destruct (Hlay 1%nat xi Hxi) as (_ & _ & ->). reflexivity.
Defined.

(** ** The smoothness penalty *)

Lemma sum_range_indicator (n k : nat) (c : Qc) :
  sum_range n (λ j, if decide (j = k) then c else 0)
  = if decide (k < n)%nat then c else 0.
Proof.
  induction n as [|n IH]; [done|]. rewrite sum_range_S, IH.
  repeat case_decide; try lia; ring.
Qed.

Lemma sum_range_indicator_succ (n k : nat) (c : Qc) :
  sum_range n (λ j, if decide (S j = k) then c else 0)
  = if decide (1 ≤ k ≤ n)%nat then c else 0.
Proof.
  induction n as [|n IH].
  - rewrite sum_range_O. by rewrite decide_False by lia.
  - rewrite sum_range_S, IH. repeat case_decide; try lia; ring.
Qed.

(** The rows of the second-difference matrix sum to 0, except the first
    and the last one. *)
Lemma laplacian_row_flat (n k : nat) (c : Qc) :
  (k < n)%nat →
  apply_row laplacian_entry n (λ _, c) k
  = Qc_of_Z (-2) * c
    + (if decide (S k < n)%nat then c else 0)
    + (if decide (1 ≤ k)%nat then c else 0).
Proof.
  intros Hk. unfold apply_row.
  transitivity (sum_range n (λ j,
    (if decide (j = k) then Qc_of_Z (-2) * c else 0)
    + ((if decide (j = S k) then c else 0)
       + (if decide (S j = k) then c else 0)))).
  { apply sum_range_ext. intros j _. unfold laplacian_entry.
    destruct (decide (k = j)) as [->|Hkj].
    - rewrite decide_True by done. rewrite !decide_False by lia. ring.
    - rewrite (decide_False (P := j = k)) by congruence.
      destruct (decide (j = S k ∨ k = S j)) as [[->| ->]|Hn].
      + rewrite decide_True by done. rewrite decide_False by lia. ring.
      + rewrite decide_False by lia. rewrite decide_True by done. ring.
      + rewrite !decide_False by lia. ring. }
  rewrite !sum_range_plus, !sum_range_indicator, sum_range_indicator_succ.
  repeat case_decide; try lia; ring.
Qed.

(** X18.  The smoothness penalty does not vanish on a flat vector: for at
    least two bins, [‖G x‖² = 2c²] when every entry of [x] is [c], because
    the first and the last row of the matrix [_get_laplacian] returns do
    not sum to zero. *)
Theorem flat_vector_penalty (n : nat) (c : Qc) :
  (2 ≤ n)%nat →
  ∃ G : ndarray,
    _get_laplacian n = Ok G ∧
    sum_range n (λ k, apply_row (entry G) n (λ _, c) k
                      * apply_row (entry G) n (λ _, c) k)
    = 2 * c * c ∧
    curvature2 n (λ _, c) = 2 * c * c.
Proof.
  intros Hn.
  destruct (_get_laplacian_spec n) as (G & HG & _ & _ & He); [lia|].
  exists G. split; [done|].
  assert (curvature2 n (λ _, c) = 2 * c * c) as Hcurv.
  { unfold curvature2.
    transitivity (sum_range n (λ k,
      (if decide (k = 0%nat) then c * c else 0)
      + (if decide (k = (n - 1)%nat) then c * c else 0))).
    - apply sum_range_ext. intros k Hk. rewrite laplacian_row_flat by done.
      replace (Qc_of_Z (-2)) with (- (1 + 1)) by (apply Qc_is_canon; reflexivity).
      repeat case_decide; try lia; ring.
    - rewrite sum_range_plus, !sum_range_indicator.
      rewrite !decide_True by lia. ring. }
  split; [|done]. rewrite <-Hcurv. unfold curvature2.
  apply sum_range_ext. intros k Hk.
  assert (apply_row (entry G) n (λ _, c) k = apply_row laplacian_entry n (λ _, c) k)
    as ->; [|done].
  apply sum_range_ext. intros j Hj. by rewrite He.
Qed.

Lemma flat_vector_penalty_witness :
  curvature2 3 (λ _, Qc_of_Z 5) = 2 * Qc_of_Z 5 * Qc_of_Z 5.
Proof.
  destruct (flat_vector_penalty 3 (Qc_of_Z 5)) as (G & _ & _ & Hc); [lia|].
  exact Hc.
Defined.

Lemma quadratic_coeff_sym (Rm : ndarray) (lam : Qc) (n i j : nat) :
  quadratic_coeff Rm lam n i j = quadratic_coeff Rm lam n j i.
Proof.
  unfold quadratic_coeff, RtR_entry, GtG_entry. f_equal; [|f_equal];
    apply sum_range_ext; intros k _; ring.
Qed.

(** X19.  The matrix [B] of line 61 is symmetric. *)
Theorem quadratic_matrix_symmetric (Rm : ndarray) (lam : Qc) (n : nat) :
  ncols Rm = n → (0 < n)%nat →
  ∃ G RtR GtG B : ndarray,
    _get_laplacian n = Ok G ∧
    np_matmul (np_T Rm) Rm = Ok RtR ∧
    np_matmul (np_T G) G = Ok GtG ∧
    np_add RtR (np_scale lam GtG) = Ok B ∧
    ∀ i j : nat, (i < n)%nat → (j < n)%nat →
      ∃ b : Qc, getitem2 B i j = Ok b ∧ getitem2 B j i = Ok b.
Proof.
  intros Hc Hn.
  destruct (quadratic_matrix_spec Rm lam n Hc Hn)
    as (G & RtR & GtG & B & HG & HR & HGG & HB & Hent).
  exists G, RtR, GtG, B. do 4 (split; [done|]).
  intros i j Hi Hj. exists (quadratic_coeff Rm lam n i j).
  destruct (Hent i j Hi Hj) as (_ & _ & _ & ->).
  destruct (Hent j i Hj Hi) as (_ & _ & _ & ->).
  by rewrite (quadratic_coeff_sym Rm lam n j i).
Qed.

Lemma quadratic_matrix_symmetric_witness :
  ∃ (B : ndarray) (b : Qc),
    getitem2 B 0 1 = Ok b ∧ getitem2 B 1 0 = Ok b.
Proof.
  destruct (quadratic_matrix_symmetric counts22 (frac 1 20) 2 eq_refl)
    as (G & RtR & GtG & B & _ & _ & _ & _ & Hsym); [lia|].
  destruct (Hsym 0%nat 1%nat) as (b & H01 & H10); [lia|lia|].
  by exists B, b.
Defined.

(** ** The caller *)

(** X20.  [QUnfold_unfolder_and_plot] returns only if the construction,
    the simulated-annealing solve and the hybrid solve all succeed; what
    it returns is the simulated-annealing vector computed with
    [lam = 0.05] and [num_reads = 100], one entry per entry of the
    measured vector; the hybrid vector is only plotted. *)
Theorem unfolder_returns_annealing_result (env : plot_env) (sa : sa_sampler)
    (hyb : hybrid_sampler) (unf_type : string) (response : loc)
    (meas truth : list Qc) (h : heap) (v : list Qc) :
  QUnfold_unfolder_and_plot env sa hyb unf_type response meas truth h = Ok v →
  ∃ (self : QUnfoldQUBO) (h1 : heap) (w : list Qc),
    __init__ response meas (frac 1 20) h = Ok (self, h1) ∧
    solve_simulated_annealing self h1 sa 100 None = Ok v ∧
    solve_hybrid_sampler self h1 hyb = Ok w ∧
    length v = length meas ∧ length w = length meas.
Proof.
  unfold QUnfold_unfolder_and_plot.
  intros (_ & _ & ([self h1] & Hinit & (v' & Hsa & (_ & _ & (w & Hhyb &
            (_ & _ & [= ->])%bind_Ok)%bind_Ok)%bind_Ok)%bind_Ok)%bind_Ok)%bind_Ok.
  assert (frac 5 100 = frac 1 20) as Hlam by (apply Qc_is_canon; reflexivity).
  rewrite Hlam in Hinit.
  assert (self_d self = meas) as Hd.
  { unfold __init__ in Hinit.
    apply bind_Ok in Hinit as (b & _ & Hinit). destruct (negb b).
    - apply bind_Ok in Hinit as ([l h'] & _ & [= <- _]). done.
    - by injection Hinit as <- _. }
  exists self, h1, w. split; [done|]. split; [done|]. split; [done|].
  rewrite <-Hd. split.
  - by eapply solve_simulated_annealing_length.
  - by eapply solve_hybrid_sampler_length.
Qed.

Lemma unfolder_returns_annealing_result_witness :
  ∃ v : list Qc,
    QUnfold_unfolder_and_plot quiet_env (fixed_sa_sampler [all_zero; x0_all_ones])
      (fixed_hybrid_sampler [all_zero]) "SA" 0%nat
      [Qc_of_Z 10; Qc_of_Z 0; Qc_of_Z 0] [Qc_of_Z 10; Qc_of_Z 0; Qc_of_Z 0]
      (heap_with identity3) = Ok v ∧
    length v = 3%nat.
Proof.
  destruct (QUnfold_unfolder_and_plot quiet_env
              (fixed_sa_sampler [all_zero; x0_all_ones])
              (fixed_hybrid_sampler [all_zero]) "SA" 0%nat
              [Qc_of_Z 10; Qc_of_Z 0; Qc_of_Z 0] [Qc_of_Z 10; Qc_of_Z 0; Qc_of_Z 0]
              (heap_with identity3)) as [v|e] eqn:Hv; [|by vm_compute in Hv].
  destruct (unfolder_returns_annealing_result _ _ _ _ _ _ _ _ _ Hv)
    as (self & h1 & w & _ & _ & _ & Hlen & _).
  exists v. split; [reflexivity|exact Hlen].
Defined.

(** X21.  When the hybrid sampler raises, the call raises the same
    exception although the simulated-annealing vector has been computed
    and plotted: the function cannot be used without the hybrid backend. *)
Theorem unfolder_needs_hybrid_backend (env : plot_env) (sa : sa_sampler)
    (hyb : hybrid_sampler) (unf_type : string) (response : loc)
    (meas truth : list Qc) (h : heap) (self : QUnfoldQUBO) (h1 : heap)
    (v : list Qc) (e : error) :
  env_makedirs env = Ok () →
  __init__ response meas (frac 5 100) h = Ok (self, h1) →
  solve_simulated_annealing self h1 sa 100 None = Ok v →
  env_plot_sa env response meas truth v = Ok () →
  (∀ model : Expr, hyb model = Raise e) →
  QUnfold_unfolder_and_plot env sa hyb unf_type response meas truth h = Raise e.
Proof.
  intros Hmk Hinit Hsa Hplot Hhyb. unfold QUnfold_unfolder_and_plot.
  rewrite Hmk. cbn [mbind result_bind]. rewrite Hinit. cbn [mbind result_bind].
  rewrite Hsa. cbn [mbind result_bind]. rewrite Hplot. cbn [mbind result_bind].
  unfold solve_simulated_annealing in Hsa. unfold solve_hybrid_sampler.
  apply bind_Ok in Hsa as (Rm & HRm & ([labels model] & Hm & _)%bind_Ok).
  rewrite HRm. cbn [mbind result_bind]. rewrite Hm. cbn [mbind result_bind].
  by rewrite Hhyb.
Qed.

Lemma unfolder_needs_hybrid_backend_witness :
  QUnfold_unfolder_and_plot quiet_env (fixed_sa_sampler [all_zero; x0_all_ones])
    unreachable_hybrid "SA" 0%nat
    [Qc_of_Z 10; Qc_of_Z 0; Qc_of_Z 0] [Qc_of_Z 10; Qc_of_Z 0; Qc_of_Z 0]
    (heap_with identity3) = Raise ValueError.
Proof.
  destruct (__init__ 0%nat [Qc_of_Z 10; Qc_of_Z 0; Qc_of_Z 0] (frac 5 100)
              (heap_with identity3)) as [[self h1]|e] eqn:Hi; [|by vm_compute in Hi].
  destruct (solve_simulated_annealing self h1
              (fixed_sa_sampler [all_zero; x0_all_ones]) 100 None)
    as [v|e] eqn:Hv.
  - apply (unfolder_needs_hybrid_backend quiet_env _ unreachable_hybrid "SA"
             0%nat _ _ _ self h1 v ValueError eq_refl Hi Hv eq_refl).
    intros model. reflexivity.
  - exfalso. revert Hv. injection Hi as <- <-. by vm_compute.
Defined.
